(** * Filter merge engine, grouper, WAL recovery and filter validation

    A shallow embedding of the query-execution core of the repository:

    - [Inverted]: [adapters/repos/db/inverted/prop_value_pairs.go]
      ([fetchDocIDs], [mergeDocIDs], [mergeAnd], [mergeOr],
      [checksumsIdentical]);
    - [Aggregator]: the grouper of the aggregator package
      ([insertOrdered], [aggregateAndSelect]);
    - [Lsmkv]: the write-ahead-log recovery protocol of a Replace bucket,
      after the specification (the package itself is not embedded);
    - [Traverser]: validation of [where] filters against the schema, after
      the specification and the test of the package.

    Go values are modelled as follows: [uint64] document ids and counters as
    [N] (counter increments wrap at 2^64), [int] as [Z], [[]byte] as
    [list byte], [string] as [string], a [map[uint64]uint64] as [gmap N N],
    errors as the message of the [error] value. *)

From Stdlib Require Import ZArith NArith List String Ascii Lia.
From Stdlib.Strings Require Import Byte.
From stdpp Require Import base decidable countable gmap list strings fin_maps pretty sorting.

Set Warnings "-register-all".

(** ** Errors

    A Go function returning [(T, error)] is modelled as a [result T]; the
    error is represented by its message as [err.Error()] prints it. *)

Inductive result (A : Type) : Type :=
| Ok (a : A)
| Err (msg : string).
Arguments Ok {A} a.
Arguments Err {A} msg.

Definition is_Ok {A} (r : result A) : Prop :=
  match r with Ok _ => True | Err _ => False end.

(** [errors.Wrapf(err, format, args...)]: the message is prefixed, separated
    by a colon and a blank. *)
Definition Wrapf (msg : string) (prefix : string) : string :=
  prefix +:+ ": " +:+ msg.

#[global] Instance byte_eq_dec : EqDecision byte := Byte.byte_eq_dec.

(** [bytes.Equal]: two byte slices are equal when they hold the same bytes
    (a nil slice and an empty one are equal; both are [[]] here). *)
Definition bytes_Equal (a b : list byte) : bool := bool_decide (a = b).

(** A Go pointer compared with [nil]. *)
Definition is_nil {A} (p : option A) : bool :=
  match p with None => true | Some _ => false end.

(** Conversion to [uint64], and the wrap-around of [uint64] arithmetic. *)
Definition wrap64 (n : N) : N := (n mod 2 ^ 64)%N.

Module Inverted.

(** [filters.Operator]: the operators the specification names. *)
Inductive Operator : Type :=
| OperatorEqual
| OperatorNotEqual
| OperatorGreaterThan
| OperatorGreaterThanEqual
| OperatorLessThan
| OperatorLessThanEqual
| OperatorLike
| OperatorWithinGeoRange
| OperatorIsNull
| OperatorAnd
| OperatorOr.

#[global] Instance Operator_eq_dec : EqDecision Operator.
Proof. solve_decision. Defined.

Section Searcher.

(** The parts of other packages that [prop_value_pairs.go] uses and that are
    not part of the embedded file are parameters of the development:
    - [Freq]: the type of [docPointer.frequency] with its zero value;
    - [GeoRange]: [filters.GeoRange]; [Bucket]: [lsmkv.Bucket];
    - [OnValue], [OperatorName]: methods [OnValue()] and [Name()] of
      [filters.Operator];
    - [BucketFromPropNameLSM], [PropertyNameID]: package [helpers];
    - [Searcher_docPointers]: the method [docPointers] of [Searcher];
    - [mergeAndOptimized], [docPointerChecksum], [combineChecksums]:
      siblings in package [inverted]. *)
Context {Freq : Type} (freq0 : Freq).
Context {GeoRange : Type} {Bucket : Type}.
Variable OnValue : Operator -> bool.
Variable OperatorName : Operator -> string.
Variable BucketFromPropNameLSM : string -> string.
Variable PropertyNameID : string.

Record docPointer : Type := mkDocPointer {
  id : N;
  frequency : Freq
}.

Record docPointers : Type := mkDocPointers {
  docIDs : list docPointer;
  checksum : list byte
}.

(** [propValuePair]; the field [docIDs] of the Go struct is [pv_docIDs]. *)
Inductive propValuePair : Type := mkPropValuePair {
  prop : string;
  operator : Operator;
  value : list byte;
  valueGeoRange : option GeoRange;
  hasFrequency : bool;
  pv_docIDs : docPointers;
  children : list propValuePair
}.

(** [Searcher]: only the field [store] is used; [store.Bucket(id)] is [nil]
    ([None]) when the store has no bucket of that name. *)
Record Searcher : Type := mkSearcher {
  store_Bucket : string -> option Bucket
}.

Variable Searcher_docPointers :
  Searcher -> string -> option Bucket -> Z -> propValuePair -> bool ->
  result docPointers.
Variable mergeAndOptimized : list propValuePair -> bool -> result docPointers.
Variable docPointerChecksum : list N -> result (list byte).
Variable combineChecksums : list (list byte) -> Operator -> list byte.

(** Go leaves the iteration order of [range] over a map unspecified:
    [map_range] is any enumeration of the entries of the map. *)
Variable map_range : gmap N N -> list (N * N).
Hypothesis map_range_perm : forall m, map_range m ≡ₚ map_to_list m.

(** *** [fetchDocIDs]

    The method mutates the receiver and its children in place and returns an
    error; the model returns the receiver as it is left, the observable calls
    in order, and the error ([None] for [nil]). *)

Inductive call : Type :=
| CallFetchDocIDs (child : nat) (limit : Z)
    (* [child.fetchDocIDs(s, limit, _)] on the child at this position *)
| CallDocPointers (bucket : string) (limit : Z).
    (* [s.docPointers(bucket, _, limit, _, _)] *)

Definition call_limit (c : call) : Z :=
  match c with
  | CallFetchDocIDs _ l => l
  | CallDocPointers _ l => l
  end.

Record fetched : Type := mkFetched {
  f_pv : propValuePair;
  f_calls : list call;
  f_err : option string
}.

Definition set_docIDs (pv : propValuePair) (d : docPointers) : propValuePair :=
  mkPropValuePair (prop pv) (operator pv) (value pv) (valueGeoRange pv)
    (hasFrequency pv) d (children pv).

Definition set_internal_id (pv : propValuePair) : propValuePair :=
  mkPropValuePair PropertyNameID (operator pv) (value pv) (valueGeoRange pv)
    false (pv_docIDs pv) (children pv).

Definition set_children (pv : propValuePair) (cs : list propValuePair)
  : propValuePair :=
  mkPropValuePair (prop pv) (operator pv) (value pv) (valueGeoRange pv)
    (hasFrequency pv) (pv_docIDs pv) cs.

(** The body of the branch [pv.operator.OnValue()]. *)
Definition fetchLeaf (s : Searcher) (limit : Z) (tolerateDuplicates : bool)
  (pv : propValuePair) : fetched :=
  let '(id, pv) :=
    if String.eqb (prop pv) "id"
    then (BucketFromPropNameLSM PropertyNameID, set_internal_id pv)
    else (BucketFromPropNameLSM (prop pv), pv) in
  let b := store_Bucket s id in
  if is_nil b && negb (bool_decide (operator pv = OperatorWithinGeoRange))
  then mkFetched pv []
         (Some ("bucket for prop " +:+ prop pv +:+ " not found - is it indexed?"))
  else
    match Searcher_docPointers s id b limit pv tolerateDuplicates with
    | Err e => mkFetched pv [CallDocPointers id limit] (Some e)
    | Ok pointers =>
        mkFetched (set_docIDs pv pointers) [CallDocPointers id limit] None
    end.

(** The loop over [pv.children] of the other branch: each child is fetched
    with the limit 0, and the first error ends the loop. *)
Definition fetchChildren (fetch : Z -> propValuePair -> fetched)
  : nat -> list propValuePair -> list propValuePair * list call * option string :=
  fix nested (i : nat) (cs : list propValuePair) {struct cs} :=
    match cs with
    | [] => ([], [], None)
    | child :: rest =>
        let r := fetch 0%Z child in
        match f_err r with
        | Some e =>
            (f_pv r :: rest, CallFetchDocIDs i 0 :: f_calls r,
             Some (Wrapf e ("nested child " +:+ pretty i)))
        | None =>
            let '(rest', calls, err) := nested (S i) rest in
            (f_pv r :: rest', CallFetchDocIDs i 0 :: f_calls r ++ calls, err)
        end
    end.

Fixpoint fetchDocIDs (s : Searcher) (limit : Z) (tolerateDuplicates : bool)
  (pv : propValuePair) {struct pv} : fetched :=
  match pv with
  | mkPropValuePair _ op _ _ _ _ cs =>
      if OnValue op then fetchLeaf s limit tolerateDuplicates pv
      else
        let '(cs', calls, err) :=
          fetchChildren (fun l c => fetchDocIDs s l tolerateDuplicates c) 0%nat cs in
        mkFetched (set_children pv cs') calls err
  end.

(** *** Merging *)

Definition checksumsIdentical (sets : list docPointers) : bool :=
  match sets with
  | [] => false
  | [_] => true
  | first :: _ =>
      let lastChecksum := checksum first in
      forallb (fun set => bytes_Equal (checksum set) lastChecksum) sets
  end.

(** The loop [for i, child := range children] that fills [sets]. *)
Definition retrieveChildIDs (merge : propValuePair -> bool -> result docPointers)
  (acceptDuplicates : bool) : nat -> list propValuePair -> result (list docPointers) :=
  fix retrieve (i : nat) (cs : list propValuePair) {struct cs} :=
    match cs with
    | [] => Ok []
    | child :: rest =>
        match merge child acceptDuplicates with
        | Err e => Err (Wrapf e ("retrieve doc ids of child " +:+ pretty i))
        | Ok docIDs =>
            match retrieve (S i) rest with
            | Err e => Err e
            | Ok sets => Ok (docIDs :: sets)
            end
        end
    end.

(** [found := map[uint64]uint64{}] filled by the two nested loops:
    [count := found[pointer.id]; count++; found[pointer.id] = count]. *)
Definition countPointer (found : gmap N N) (pointer : docPointer) : gmap N N :=
  <[id pointer := wrap64 (default 0%N (found !! id pointer) + 1)]> found.

Definition countSets (sets : list docPointers) : gmap N N :=
  fold_left (fun found set => fold_left countPointer (docIDs set) found) sets ∅.

(** Modelled from the spec: [mergeOrAcceptDuplicates] is not part of the
    embedded file. The specification describes the duplicate-tolerant
    variant as the merge for callers that accept repeated ids and want the
    efficiency of not deduplicating: the children's lists are put one after
    the other, and the checksum is combined as in the duplicate-free OR. *)
Definition mergeOrAcceptDuplicates (sets : list docPointers) : result docPointers :=
  Ok (mkDocPointers (concat (map docIDs sets))
        (combineChecksums (map checksum sets) OperatorOr)).

(** [mergeAnd] and [mergeOr] after the children's ids are retrieved. *)
Definition mergeAndSets (sets : list docPointers) : result docPointers :=
  match checksumsIdentical sets, sets with
  | true, first :: _ => Ok first
  | _, _ =>
      let found := countSets sets in
      let ids :=
        map fst
          (filter (fun e => snd e = wrap64 (N.of_nat (length sets)))
             (map_range found)) in
      match docPointerChecksum ids with
      | Err e => Err (Wrapf e "calculate checksum")
      | Ok checksum =>
          Ok (mkDocPointers (map (fun id => mkDocPointer id freq0) ids) checksum)
      end
  end.

Definition mergeOrSets (sets : list docPointers) (acceptDuplicates : bool)
  : result docPointers :=
  match checksumsIdentical sets, sets with
  | true, first :: _ => Ok first
  | _, _ =>
      if acceptDuplicates then mergeOrAcceptDuplicates sets
      else
        let checksums := map checksum sets in
        let found := countSets sets in
        Ok (mkDocPointers
              (map (fun e => mkDocPointer (fst e) freq0) (map_range found))
              (combineChecksums checksums OperatorOr))
  end.

Fixpoint mergeDocIDs (pv : propValuePair) (acceptDuplicates : bool) {struct pv}
  : result docPointers :=
  match pv with
  | mkPropValuePair _ op _ _ _ d cs =>
      if OnValue op then Ok d
      else
        match op with
        | OperatorAnd => mergeAndOptimized cs acceptDuplicates
        | OperatorOr =>
            match retrieveChildIDs mergeDocIDs acceptDuplicates 0%nat cs with
            | Err e => Err e
            | Ok sets => mergeOrSets sets acceptDuplicates
            end
        | _ => Err ("unsupported operator: " +:+ OperatorName op)
        end
  end.

Definition mergeAnd (children : list propValuePair) (acceptDuplicates : bool)
  : result docPointers :=
  match retrieveChildIDs mergeDocIDs acceptDuplicates 0%nat children with
  | Err e => Err e
  | Ok sets => mergeAndSets sets
  end.

Definition mergeOr (children : list propValuePair) (acceptDuplicates : bool)
  : result docPointers :=
  match retrieveChildIDs mergeDocIDs acceptDuplicates 0%nat children with
  | Err e => Err e
  | Ok sets => mergeOrSets sets acceptDuplicates
  end.

(** The ids of a posting list, all pointers of the children's lists in
    order, and the occurrence count of an id across all children. *)
Definition setIDs (set : docPointers) : list N := map id (docIDs set).

Definition allPointers (sets : list docPointers) : list docPointer :=
  concat (map docIDs sets).

Definition occIn (i : N) (l : list docPointer) : nat :=
  length (filter (fun p => id p = i) l).

Definition occurrences (i : N) (sets : list docPointers) : nat :=
  occIn i (allPointers sets).

(** *** Reasoning principles *)

(** Induction over a clause tree: the property holds of a clause when it
    holds of all its children. *)
Fixpoint propValuePair_tree_ind (P : propValuePair -> Prop)
  (step : forall p op v g h d cs,
      Forall P cs -> P (mkPropValuePair p op v g h d cs))
  (pv : propValuePair) {struct pv} : P pv :=
  match pv with
  | mkPropValuePair p op v g h d cs =>
      step p op v g h d cs
        ((fix all (l : list propValuePair) : Forall P l :=
            match l with
            | [] => List.Forall_nil P
            | c :: l' =>
                List.Forall_cons P c l' (propValuePair_tree_ind P step c) (all l')
            end) cs)
  end.

Lemma fetchDocIDs_unfold s limit td pv :
  fetchDocIDs s limit td pv =
  if OnValue (operator pv) then fetchLeaf s limit td pv
  else
    let '(cs', calls, err) :=
      fetchChildren (fun l c => fetchDocIDs s l td c) 0%nat (children pv) in
    mkFetched (set_children pv cs') calls err.
Proof. destruct pv; reflexivity. Qed.

Lemma fetchLeaf_calls s limit td pv :
  Forall (fun c => call_limit c = limit) (f_calls (fetchLeaf s limit td pv)).
Proof.
  unfold fetchLeaf.
  destruct (String.eqb (prop pv) "id"); cbn zeta beta iota;
  match goal with
  | |- context [if ?c then _ else _] => destruct c; simpl; [constructor|]
  end;
  match goal with
  | |- context [Searcher_docPointers ?a ?b ?c ?d ?e ?f] =>
      destruct (Searcher_docPointers a b c d e f); simpl; repeat constructor
  end.
Qed.

Lemma fetchChildren_calls (fetch : Z -> propValuePair -> fetched) cs :
  Forall (fun c => Forall (fun k => call_limit k = 0%Z) (f_calls (fetch 0%Z c))) cs ->
  forall i, Forall (fun k => call_limit k = 0%Z) (fetchChildren fetch i cs).1.2.
Proof.
  induction 1 as [|c cs Hc _ IH]; intros i; simpl; [constructor|].
  destruct (f_err (fetch 0%Z c)) as [e|]; simpl.
  - constructor; [reflexivity|exact Hc].
  - specialize (IH (S i)).
    destruct (fetchChildren fetch (S i) cs) as [[rest' calls] err]; simpl in *.
    constructor; [reflexivity|]. apply Forall_app; split; assumption.
Qed.

Lemma fetchChildren_each (fetch : Z -> propValuePair -> fetched) cs :
  forall i, (fetchChildren fetch i cs).2 = None ->
  forall j, (j < length cs)%nat ->
    CallFetchDocIDs (i + j) 0 ∈ (fetchChildren fetch i cs).1.2.
Proof.
  induction cs as [|c cs IH]; intros i Herr j Hj; simpl in *; [lia|].
  destruct (f_err (fetch 0%Z c)) as [e|]; simpl in *; [discriminate|].
  specialize (IH (S i)).
  destruct (fetchChildren fetch (S i) cs) as [[rest' calls] err]; simpl in *.
  destruct j as [|j].
  - rewrite Nat.add_0_r. apply list_elem_of_here.
  - apply list_elem_of_further, elem_of_app; right.
    replace (i + S j)%nat with (S i + j)%nat by lia.
    apply IH; [assumption|lia].
Qed.

Lemma fetchChildren_success (fetch : Z -> propValuePair -> fetched) cs :
  forall i, (fetchChildren fetch i cs).2 = None
            <-> Forall (fun c => f_err (fetch 0%Z c) = None) cs.
Proof.
  induction cs as [|c cs IH]; intros i; simpl.
  - split; [constructor|reflexivity].
  - destruct (f_err (fetch 0%Z c)) as [e|] eqn:Hc; simpl.
    + split; [discriminate|]. intros Hall.
      apply Forall_cons in Hall as [Hc' _]. congruence.
    + specialize (IH (S i)).
      destruct (fetchChildren fetch (S i) cs) as [[rest' calls] err]; simpl in *.
      rewrite IH. split.
      * intros Hall. constructor; assumption.
      * intros Hall. apply Forall_cons in Hall as [_ Hall]. exact Hall.
Qed.

Lemma fetchChildren_all (fetch : Z -> propValuePair -> fetched) cs :
  forall i, (fetchChildren fetch i cs).2 = None ->
    (fetchChildren fetch i cs).1.1 = map (fun c => f_pv (fetch 0%Z c)) cs
    /\ (fetchChildren fetch i cs).1.2
       = concat (imap (fun j c => CallFetchDocIDs (i + j) 0 :: f_calls (fetch 0%Z c))
                   cs).
Proof.
  induction cs as [|c cs IH]; intros i Herr; simpl in *; [split; reflexivity|].
  destruct (f_err (fetch 0%Z c)) as [e|]; simpl in *; [discriminate|].
  specialize (IH (S i)).
  destruct (fetchChildren fetch (S i) cs) as [[rest' calls] err]; simpl in *.
  destruct (IH Herr) as [Hcs Hcalls]. subst rest' calls.
  rewrite Nat.add_0_r. split; [reflexivity|].
  do 3 f_equal. apply imap_ext. intros j x _. simpl.
  replace (i + S j)%nat with (S (i + j)) by lia. reflexivity.
Qed.

Lemma fetchChildren_pointwise (fetch : Z -> propValuePair -> fetched) cs :
  forall i j c, cs !! j = Some c ->
    (fetchChildren fetch i cs).1.1 !! j = Some c
    \/ (fetchChildren fetch i cs).1.1 !! j = Some (f_pv (fetch 0%Z c)).
Proof.
  induction cs as [|c0 cs IH]; intros i j c Hj; [discriminate|]. simpl.
  destruct (f_err (fetch 0%Z c0)) as [e|]; simpl.
  - destruct j as [|j]; simpl in *.
    + injection Hj as ->. right. reflexivity.
    + left. exact Hj.
  - specialize (IH (S i)).
    destruct (fetchChildren fetch (S i) cs) as [[rest' calls] err]; simpl in *.
    destruct j as [|j]; simpl in *.
    + injection Hj as ->. right. reflexivity.
    + apply IH. exact Hj.
Qed.

Lemma fetchDocIDs_zero_calls s td pv :
  Forall (fun k => call_limit k = 0%Z) (f_calls (fetchDocIDs s 0 td pv)).
Proof.
  induction pv as [p op v g h d cs IH] using propValuePair_tree_ind.
  rewrite fetchDocIDs_unfold; simpl.
  destruct (OnValue op); [apply fetchLeaf_calls|].
  pose proof (fetchChildren_calls (fun l c => fetchDocIDs s l td c) cs IH 0%nat) as H.
  destruct (fetchChildren _ 0%nat cs) as [[cs' calls] err]; exact H.
Qed.

Lemma checksumsIdentical_true first rest :
  Forall (fun set => checksum set = checksum first) rest ->
  checksumsIdentical (first :: rest) = true.
Proof.
  intros H. destruct rest as [|second rest]; [reflexivity|].
  unfold checksumsIdentical. apply forallb_forall. intros x Hx.
  apply bool_decide_eq_true.
  destruct Hx as [<-|Hx]; [reflexivity|].
  rewrite Forall_forall in H. apply H, list_elem_of_In, Hx.
Qed.

(** *** Counting *)

Lemma fold_left_concat {A B} (f : A -> B -> A) (ls : list (list B)) (a : A) :
  fold_left (fun acc l => fold_left f l acc) ls a = fold_left f (concat ls) a.
Proof.
  revert a. induction ls as [|l ls IH]; intros a; simpl; [reflexivity|].
  rewrite fold_left_app. apply IH.
Qed.

Lemma countSets_flat sets :
  countSets sets = fold_left countPointer (allPointers sets) ∅.
Proof.
  unfold countSets, allPointers.
  rewrite <- (fold_left_concat countPointer (map docIDs sets) ∅).
  generalize (∅ : gmap N N). induction sets as [|s sets IH]; intros m; simpl;
    [reflexivity|apply IH].
Qed.

Lemma wrap64_succ a k :
  wrap64 (wrap64 (a + 1) + N.of_nat k) = wrap64 (a + N.of_nat (S k)).
Proof.
  unfold wrap64. rewrite N.Div0.add_mod_idemp_l. f_equal. lia.
Qed.

Lemma countPointer_fold l : forall (m : gmap N N) i,
  fold_left countPointer l m !! i =
  match occIn i l with
  | O => m !! i
  | S _ => Some (wrap64 (default 0%N (m !! i) + N.of_nat (occIn i l)))
  end.
Proof.
  unfold occIn.
  induction l as [|p l IH]; intros m i; simpl; [reflexivity|].
  rewrite IH. unfold countPointer.
  rewrite filter_cons. destruct (decide (id p = i)) as [->|Hne]; simpl.
  - rewrite lookup_insert_eq. simpl.
    destruct (length (filter _ l)) as [|k] eqn:Hk.
    + f_equal.
    + f_equal. apply wrap64_succ.
  - rewrite lookup_insert_ne by exact Hne. reflexivity.
Qed.

Lemma countSets_lookup sets i :
  countSets sets !! i =
  match occurrences i sets with
  | O => None
  | S _ => Some (wrap64 (N.of_nat (occurrences i sets)))
  end.
Proof.
  rewrite countSets_flat, countPointer_fold. unfold occurrences.
  rewrite lookup_empty. reflexivity.
Qed.

Lemma map_range_lookup (m : gmap N N) i c :
  (i, c) ∈ map_range m <-> m !! i = Some c.
Proof. rewrite (map_range_perm m). apply elem_of_map_to_list. Qed.

Lemma map_range_NoDup_fst (m : gmap N N) : NoDup (map fst (map_range m)).
Proof.
  change (NoDup (fst <$> map_range m)).
  rewrite (map_range_perm m). apply NoDup_fst_map_to_list.
Qed.

Lemma occurrences_cons i s sets :
  occurrences i (s :: sets) = (occIn i (docIDs s) + occurrences i sets)%nat.
Proof.
  unfold occurrences, occIn, allPointers. simpl.
  rewrite filter_app, length_app. reflexivity.
Qed.

Lemma occIn_zero i l : occIn i l = O <-> i ∉ map id l.
Proof.
  unfold occIn. induction l as [|p l IH]; simpl.
  - split; [intros _ H; inversion H|reflexivity].
  - rewrite filter_cons, not_elem_of_cons.
    destruct (decide (id p = i)) as [->|Hne]; simpl.
    + split; [discriminate|intros [H _]; congruence].
    + rewrite IH. split; [intros H; split; [congruence|exact H]|intros [_ H]; exact H].
Qed.

Lemma occIn_NoDup i l : NoDup (map id l) -> (occIn i l <= 1)%nat.
Proof.
  unfold occIn. induction l as [|p l IH]; simpl; intros Hnd; [lia|].
  apply NoDup_cons in Hnd as [Hnotin Hnd].
  rewrite filter_cons. destruct (decide (id p = i)) as [<-|Hne]; simpl.
  - apply occIn_zero in Hnotin. unfold occIn in Hnotin. rewrite Hnotin. lia.
  - apply IH, Hnd.
Qed.

Lemma occurrences_bound i sets :
  (occurrences i sets <= length (allPointers sets))%nat.
Proof. unfold occurrences, occIn. apply length_filter. Qed.

Lemma occurrences_positive i sets :
  occurrences i sets <> O <-> Exists (fun set => i ∈ setIDs set) sets.
Proof.
  induction sets as [|s sets IH].
  - split; [intros H; exfalso; apply H; reflexivity|intros H; inversion H].
  - rewrite occurrences_cons, Exists_cons, <- IH.
    pose proof (occIn_zero i (docIDs s)) as Hz. unfold setIDs.
    destruct (decide (i ∈ map id (docIDs s))) as [Hin|Hout].
    + split; [intros _; left; exact Hin|intros _ H].
      apply Hz; [lia|exact Hin].
    + apply Hz in Hout. rewrite Hout. simpl.
      split; [intros H; right; exact H|intros [H|H]; [|exact H]].
      exfalso. apply Hz in Hout. exact (Hout H).
Qed.

Lemma occurrences_NoDup_le i sets :
  Forall (fun set => NoDup (setIDs set)) sets ->
  (occurrences i sets <= length sets)%nat.
Proof.
  induction 1 as [|s sets Hs _ IH]; [unfold occurrences, occIn; simpl; lia|].
  rewrite occurrences_cons. simpl.
  pose proof (occIn_NoDup i (docIDs s) Hs). lia.
Qed.

Lemma occurrences_NoDup_all i sets :
  Forall (fun set => NoDup (setIDs set)) sets ->
  occurrences i sets = length sets <-> Forall (fun set => i ∈ setIDs set) sets.
Proof.
  induction 1 as [|s sets Hs Hsets IH].
  - split; [constructor|reflexivity].
  - rewrite occurrences_cons, Forall_cons. simpl.
    pose proof (occIn_NoDup i (docIDs s) Hs) as H1.
    pose proof (occurrences_NoDup_le i sets Hsets) as H2.
    pose proof (occIn_zero i (docIDs s)) as Hz. unfold setIDs in *.
    split.
    + intros Heq. split; [|apply IH; lia].
      destruct (decide (i ∈ map id (docIDs s))) as [Hin|Hout]; [exact Hin|].
      apply Hz in Hout. lia.
    + intros [Hin Hall]. apply IH in Hall.
      destruct (occIn i (docIDs s)) as [|[|k]] eqn:Hk; [|lia|lia].
      exfalso. apply Hz; [reflexivity|exact Hin].
Qed.

Lemma setIDs_rebuilt (ids : list N) c :
  setIDs (mkDocPointers (map (fun i => mkDocPointer i freq0) ids) c) = ids.
Proof.
  unfold setIDs. simpl. rewrite map_map. simpl. apply map_id.
Qed.

(** *** Claims about [fetchDocIDs] *)

(** C5. A leaf clause (its operator works on a value) whose property has no
    bucket in the store: unless the operator is [WithinGeoRange], fetching
    fails, before any call of [docPointers], with the error
    [bucket for prop <name> not found - is it indexed?], where the name is
    the clause's property (the internal id property for the property [id]);
    for [WithinGeoRange] the missing bucket raises no error: [docPointers]
    is called with the nil bucket and the outcome is the outcome of that
    call. *)
Theorem fetchDocIDs_missing_bucket s limit td pv :
  let name :=
    if String.eqb (prop pv) "id" then PropertyNameID else prop pv in
  let pv' :=
    if String.eqb (prop pv) "id" then set_internal_id pv else pv in
  OnValue (operator pv) = true ->
  store_Bucket s (BucketFromPropNameLSM name) = None ->
  (operator pv <> OperatorWithinGeoRange ->
     f_err (fetchDocIDs s limit td pv) =
       Some ("bucket for prop " +:+ name +:+ " not found - is it indexed?")
     /\ f_calls (fetchDocIDs s limit td pv) = [])
  /\ (operator pv = OperatorWithinGeoRange ->
     f_calls (fetchDocIDs s limit td pv) =
       [CallDocPointers (BucketFromPropNameLSM name) limit]
     /\ f_err (fetchDocIDs s limit td pv) =
       match Searcher_docPointers s (BucketFromPropNameLSM name) None limit pv' td with
       | Err e => Some e
       | Ok _ => None
       end).
Proof.
  intros name pv' Hleaf Hnil.
  rewrite fetchDocIDs_unfold, Hleaf. unfold fetchLeaf.
  subst name pv'.
  destruct (String.eqb (prop pv) "id") eqn:Hid; cbn zeta beta iota;
    rewrite Hnil; simpl; split; intros Hop.
  - rewrite bool_decide_eq_false_2 by exact Hop. simpl. split; reflexivity.
  - rewrite bool_decide_eq_true_2 by exact Hop. simpl.
    destruct (Searcher_docPointers _ _ _ _ _ _); simpl; split; reflexivity.
  - rewrite bool_decide_eq_false_2 by exact Hop. simpl. split; reflexivity.
  - rewrite bool_decide_eq_true_2 by exact Hop. simpl.
    destruct (Searcher_docPointers _ _ _ _ _ _); simpl; split; reflexivity.
Qed.

(** C9. Fetching a non-leaf clause with any limit fetches the children
    with the limit 0. Every call it makes, to [fetchDocIDs] on a child at
    any depth and to [docPointers], carries the limit 0, and the outcome does
    not depend on the clause's own limit. The fetch succeeds exactly when
    the fetch of every child with the limit 0 does; then every child is left
    as its own fetch with the limit 0 leaves it, and the calls are, child
    after child, the call on the child followed by the calls of that fetch.
    Whatever the outcome, a child is either untouched or as its fetch with
    the limit 0 leaves it. *)
Theorem fetchDocIDs_nested_unlimited s limit td pv :
  OnValue (operator pv) = false ->
  Forall (fun k => call_limit k = 0%Z) (f_calls (fetchDocIDs s limit td pv))
  /\ fetchDocIDs s limit td pv = fetchDocIDs s 0 td pv
  /\ (f_err (fetchDocIDs s limit td pv) = None
      <-> Forall (fun c => f_err (fetchDocIDs s 0 td c) = None) (children pv))
  /\ (f_err (fetchDocIDs s limit td pv) = None ->
      children (f_pv (fetchDocIDs s limit td pv))
        = map (fun c => f_pv (fetchDocIDs s 0 td c)) (children pv)
      /\ f_calls (fetchDocIDs s limit td pv)
        = concat (imap (fun i c =>
                          CallFetchDocIDs i 0 :: f_calls (fetchDocIDs s 0 td c))
                    (children pv))
      /\ forall i, (i < length (children pv))%nat ->
           CallFetchDocIDs i 0 ∈ f_calls (fetchDocIDs s limit td pv))
  /\ (forall i c, children pv !! i = Some c ->
      children (f_pv (fetchDocIDs s limit td pv)) !! i = Some c
      \/ children (f_pv (fetchDocIDs s limit td pv)) !! i
         = Some (f_pv (fetchDocIDs s 0 td c))).
Proof.
  intros Hnode.
  assert (Heq : fetchDocIDs s limit td pv = fetchDocIDs s 0 td pv).
  { rewrite !fetchDocIDs_unfold, Hnode. reflexivity. }
  split; [rewrite Heq; apply fetchDocIDs_zero_calls|].
  split; [exact Heq|].
  rewrite fetchDocIDs_unfold, Hnode.
  pose proof (fetchChildren_success (fun l c => fetchDocIDs s l td c)
                (children pv) 0%nat) as Hsuccess.
  pose proof (fetchChildren_all (fun l c => fetchDocIDs s l td c)
                (children pv) 0%nat) as Hall.
  pose proof (fetchChildren_each (fun l c => fetchDocIDs s l td c)
                (children pv) 0%nat) as Heach.
  pose proof (fetchChildren_pointwise (fun l c => fetchDocIDs s l td c)
                (children pv) 0%nat) as Hpoint.
  destruct (fetchChildren _ 0%nat (children pv)) as [[cs' calls] err].
  simpl in *. split; [exact Hsuccess|]. split.
  - intros Herr. destruct (Hall Herr) as [Hcs Hcalls].
    split; [exact Hcs|]. split; [exact Hcalls|].
    intros i Hi. exact (Heach Herr i Hi).
  - exact Hpoint.
Qed.

(** *** Claims about the merges *)

(** C3. When the posting lists retrieved from a non-empty list of children
    all carry the checksum of the first (in particular when there is one
    child), [mergeAnd] and [mergeOr] both return the first child's posting
    list as it is. *)
Theorem merge_identical_checksums children ad first rest :
  retrieveChildIDs mergeDocIDs ad 0%nat children = Ok (first :: rest) ->
  Forall (fun set => checksum set = checksum first) rest ->
  mergeAnd children ad = Ok first /\ mergeOr children ad = Ok first.
Proof.
  intros Hsets Hsame. unfold mergeAnd, mergeOr. rewrite Hsets.
  unfold mergeAndSets, mergeOrSets.
  rewrite (checksumsIdentical_true first rest Hsame). split; reflexivity.
Qed.

Lemma survivors_spec sets i :
  sets <> [] ->
  (N.of_nat (length sets) < 2 ^ 64)%N ->
  (N.of_nat (length (allPointers sets)) < 2 ^ 64)%N ->
  i ∈ map fst
        (filter (fun e => snd e = wrap64 (N.of_nat (length sets)))
           (map_range (countSets sets)))
  <-> occurrences i sets = length sets.
Proof.
  intros Hne Hn Htotal.
  assert (Hlen : length sets <> O) by (destruct sets; [congruence|discriminate]).
  pose proof (occurrences_bound i sets) as Hocc.
  unfold wrap64. rewrite (N.mod_small (N.of_nat (length sets))) by exact Hn.
  change (map fst ?l) with (fst <$> l). rewrite list_elem_of_fmap.
  split.
  - intros [[j c] [-> [Hc Hin]%list_elem_of_filter]]. simpl in *.
    apply map_range_lookup in Hin. rewrite countSets_lookup in Hin.
    destruct (occurrences j sets) as [|k] eqn:Hk; [discriminate|].
    injection Hin as Hin. unfold wrap64 in Hin.
    rewrite N.mod_small in Hin by lia. lia.
  - intros Heq. exists (i, N.of_nat (length sets)). split; [reflexivity|].
    apply list_elem_of_filter. split; [reflexivity|].
    apply map_range_lookup. rewrite countSets_lookup, Heq.
    destruct (length sets) as [|k] eqn:Hk; [congruence|].
    unfold wrap64. rewrite N.mod_small by lia. reflexivity.
Qed.

Lemma survivors_NoDup (P : N * N -> Prop) `{!forall e, Decision (P e)} m :
  NoDup (map fst (filter P (map_range m))).
Proof.
  pose proof (map_range_NoDup_fst m) as Hkeys.
  induction (map_range m) as [|e l IH]; simpl in *; [constructor|].
  apply NoDup_cons in Hkeys as [Hnotin Hnd].
  rewrite filter_cons. destruct (decide (P e)); simpl; [|apply IH, Hnd].
  apply NoDup_cons. split; [|apply IH, Hnd].
  intros Hin. apply Hnotin.
  change (map fst ?l) with (fst <$> l) in *.
  apply list_elem_of_fmap in Hin as [e' [-> [_ Hin]%list_elem_of_filter]].
  apply list_elem_of_fmap. exists e'. split; [reflexivity|exact Hin].
Qed.

Lemma found_keys sets i :
  i ∈ map fst (map_range (countSets sets))
  <-> Exists (fun set => i ∈ setIDs set) sets.
Proof.
  rewrite <- occurrences_positive.
  change (map fst ?l) with (fst <$> l). rewrite list_elem_of_fmap. split.
  - intros [[j c] [-> Hin]]. simpl. apply map_range_lookup in Hin.
    rewrite countSets_lookup in Hin.
    destruct (occurrences j sets); [discriminate|discriminate].
  - intros Hocc. destruct (occurrences i sets) as [|k] eqn:Hk; [congruence|].
    exists (i, wrap64 (N.of_nat (S k))). split; [reflexivity|].
    apply map_range_lookup. rewrite countSets_lookup, Hk. reflexivity.
Qed.

(** C1 (as the code has it). For children whose retrieved posting lists
    [sets] are not all checksum-identical (and, as in any Go program, fewer
    than 2^64 lists and pointers), [mergeAnd] returns, provided the checksum
    of the survivors can be computed, a list without repeated ids in which an
    id occurs if and only if its occurrence count across all children equals
    the number of children; when no child's list repeats an id, these are
    exactly the ids present in every child's list. *)
Theorem mergeAnd_survivors children ad sets :
  retrieveChildIDs mergeDocIDs ad 0%nat children = Ok sets ->
  checksumsIdentical sets = false ->
  sets <> [] ->
  (N.of_nat (length sets) < 2 ^ 64)%N ->
  (N.of_nat (length (allPointers sets)) < 2 ^ 64)%N ->
  (forall ids, is_Ok (docPointerChecksum ids)) ->
  exists out,
    mergeAnd children ad = Ok out
    /\ NoDup (setIDs out)
    /\ (forall i, i ∈ setIDs out <-> occurrences i sets = length sets)
    /\ (Forall (fun set => NoDup (setIDs set)) sets ->
        forall i, i ∈ setIDs out <-> Forall (fun set => i ∈ setIDs set) sets).
Proof.
  intros Hsets Hdiff Hne Hn Htotal Hsum.
  unfold mergeAnd. rewrite Hsets. unfold mergeAndSets. rewrite Hdiff.
  set (ids := map fst (filter _ (map_range (countSets sets)))).
  specialize (Hsum ids). destruct (docPointerChecksum ids) as [c|e]; [|destruct Hsum].
  eexists. split; [reflexivity|]. rewrite setIDs_rebuilt.
  assert (Hiff : forall i, i ∈ ids <-> occurrences i sets = length sets)
    by (intros i; apply survivors_spec; assumption).
  split; [apply survivors_NoDup|]. split; [exact Hiff|].
  intros Hnd i. rewrite Hiff. apply occurrences_NoDup_all, Hnd.
Qed.

(** C2 (as the code has it). For children whose retrieved posting lists are
    not all checksum-identical, [mergeOr] returns a list whose ids are
    exactly the ids occurring in at least one child's list; when duplicates
    are not accepted, no id is repeated in it. *)
Theorem mergeOr_union children ad sets :
  retrieveChildIDs mergeDocIDs ad 0%nat children = Ok sets ->
  checksumsIdentical sets = false ->
  exists out,
    mergeOr children ad = Ok out
    /\ (forall i, i ∈ setIDs out <-> Exists (fun set => i ∈ setIDs set) sets)
    /\ (ad = false -> NoDup (setIDs out)).
Proof.
  intros Hsets Hdiff.
  unfold mergeOr. rewrite Hsets. unfold mergeOrSets. rewrite Hdiff.
  destruct ad.
  - eexists. split; [reflexivity|]. split; [|discriminate].
    intros i. unfold setIDs at 1. simpl. clear Hsets Hdiff.
    induction sets as [|s sets IH]; simpl.
    + split; [intros Hx; inversion Hx|intros Hx; inversion Hx].
    + rewrite map_app, elem_of_app, IH, Exists_cons. reflexivity.
  - eexists. split; [reflexivity|].
    assert (Hids : setIDs
              (mkDocPointers
                 (map (fun e => mkDocPointer (fst e) freq0)
                    (map_range (countSets sets)))
                 (combineChecksums (map checksum sets) OperatorOr))
            = map fst (map_range (countSets sets))).
    { unfold setIDs. simpl. rewrite map_map. reflexivity. }
    rewrite Hids. split; [intros i; apply found_keys|].
    intros _. apply map_range_NoDup_fst.
Qed.

(** *** Further properties of retrieval and of the checksum test *)

Lemma checksumsIdentical_all first rest :
  checksumsIdentical (first :: rest) = true ->
  forall a, a ∈ first :: rest -> checksum a = checksum first.
Proof.
  intros Hid. destruct rest as [|second rest].
  - intros a Ha. apply list_elem_of_singleton in Ha. congruence.
  - unfold checksumsIdentical in Hid. rewrite forallb_forall in Hid.
    intros a Ha. apply list_elem_of_In in Ha. specialize (Hid a Ha).
    apply bool_decide_eq_true in Hid. exact Hid.
Qed.

(** X2. [checksumsIdentical] holds exactly of the non-empty lists of sets
    that all carry one checksum. *)
Theorem checksumsIdentical_spec sets :
  checksumsIdentical sets = true
  <-> sets <> []
      /\ forall a b, a ∈ sets -> b ∈ sets -> checksum a = checksum b.
Proof.
  split.
  - intros Hid. destruct sets as [|first rest]; [discriminate|].
    split; [discriminate|].
    pose proof (checksumsIdentical_all first rest Hid) as Hall.
    intros a b Ha Hb. rewrite (Hall a Ha), (Hall b Hb). reflexivity.
  - intros [Hne Hall]. destruct sets as [|first rest]; [congruence|].
    apply checksumsIdentical_true, Forall_forall. intros x Hx.
    apply Hall; [apply list_elem_of_further, Hx|apply list_elem_of_here].
Qed.

Lemma retrieveChildIDs_Ok merge ad cs : forall k sets,
  retrieveChildIDs merge ad k cs = Ok sets
  <-> Forall2 (fun c d => merge c ad = Ok d) cs sets.
Proof.
  induction cs as [|c cs IH]; intros k sets; simpl.
  - split.
    + intros Heq. injection Heq as <-. constructor.
    + intros Hall. inversion Hall. reflexivity.
  - destruct (merge c ad) as [d|e] eqn:Hc.
    + specialize (IH (S k)).
      destruct (retrieveChildIDs merge ad (S k) cs) as [ds|e'] eqn:Hrest.
      * split.
        -- intros Heq. injection Heq as <-. constructor; [exact Hc|].
           apply IH. reflexivity.
        -- intros Hall. inversion Hall as [|? d' ? ds' Hd Hds]; subst.
           apply IH in Hds. congruence.
      * split; [discriminate|].
        intros Hall. inversion Hall as [|? d' ? ds' Hd Hds]; subst.
        apply IH in Hds. discriminate.
    + split; [discriminate|].
      intros Hall. inversion Hall as [|? d' ? ds' Hd Hds]; subst. congruence.
Qed.

Lemma retrieveChildIDs_Err merge ad cs : forall k i child e,
  cs !! i = Some child ->
  merge child ad = Err e ->
  Forall (fun c => is_Ok (merge c ad)) (take i cs) ->
  retrieveChildIDs merge ad k cs
  = Err (Wrapf e ("retrieve doc ids of child " +:+ pretty (k + i)%nat)).
Proof.
  induction cs as [|c cs IH]; intros k i child e Hi He Hbefore;
    [discriminate|].
  destruct i as [|i]; simpl in *.
  - injection Hi as ->. rewrite He, Nat.add_0_r. reflexivity.
  - apply Forall_cons in Hbefore as [Hc Hbefore].
    destruct (merge c ad) as [d|e0]; [|destruct Hc].
    rewrite (IH (S k) i child e Hi He Hbefore).
    replace (S k + i)%nat with (k + S i)%nat by lia. reflexivity.
Qed.

(** X3. When a child of an AND or OR clause cannot be merged, [mergeAnd] and
    [mergeOr] fail with the error of the first such child, prefixed with its
    position. *)
Theorem merge_first_failure children ad i child e :
  children !! i = Some child ->
  mergeDocIDs child ad = Err e ->
  Forall (fun c => is_Ok (mergeDocIDs c ad)) (take i children) ->
  mergeAnd children ad
    = Err (Wrapf e ("retrieve doc ids of child " +:+ pretty i))
  /\ mergeOr children ad
    = Err (Wrapf e ("retrieve doc ids of child " +:+ pretty i)).
Proof.
  intros Hi He Hbefore. unfold mergeAnd, mergeOr.
  rewrite (retrieveChildIDs_Err mergeDocIDs ad children 0 i child e Hi He Hbefore).
  split; reflexivity.
Qed.

(** *** Further properties of [fetchDocIDs] *)

Lemma fetchChildren_failure (fetch : Z -> propValuePair -> fetched) cs :
  forall k i child e,
  cs !! i = Some child ->
  f_err (fetch 0%Z child) = Some e ->
  Forall (fun c => f_err (fetch 0%Z c) = None) (take i cs) ->
  (fetchChildren fetch k cs).2
    = Some (Wrapf e ("nested child " +:+ pretty (k + i)%nat))
  /\ (fetchChildren fetch k cs).1.1
    = map (fun c => f_pv (fetch 0%Z c)) (take (S i) cs) ++ drop (S i) cs.
Proof.
  induction cs as [|c cs IH]; intros k i child e Hi He Hbefore;
    [discriminate|].
  destruct i as [|i]; simpl in *.
  - injection Hi as ->. rewrite He. simpl. rewrite Nat.add_0_r.
    split; reflexivity.
  - apply Forall_cons in Hbefore as [Hc Hbefore]. rewrite Hc.
    destruct (IH (S k) i child e Hi He Hbefore) as [Herr Hcs].
    destruct (fetchChildren fetch (S k) cs) as [[rest' calls] err].
    simpl in *. subst err rest'.
    replace (k + S i)%nat with (S (k + i)) by lia. split; reflexivity.
Qed.

(** X4. When the fetch of a child of a non-leaf clause fails, fetching the
    clause fails with that error, prefixed with the position of the first
    such child; the children before it and the failing child are left as
    their own fetches leave them, and the children after it are left as they
    were. *)
Theorem fetchDocIDs_first_failure s limit td pv i child e :
  OnValue (operator pv) = false ->
  children pv !! i = Some child ->
  f_err (fetchDocIDs s 0 td child) = Some e ->
  Forall (fun c => f_err (fetchDocIDs s 0 td c) = None) (take i (children pv)) ->
  f_err (fetchDocIDs s limit td pv)
    = Some (Wrapf e ("nested child " +:+ pretty i))
  /\ children (f_pv (fetchDocIDs s limit td pv))
    = map (fun c => f_pv (fetchDocIDs s 0 td c)) (take (S i) (children pv))
      ++ drop (S i) (children pv).
Proof.
  intros Hnode Hi He Hbefore. rewrite fetchDocIDs_unfold, Hnode.
  destruct (fetchChildren_failure (fun l c => fetchDocIDs s l td c)
              (children pv) 0 i child e Hi He Hbefore) as [Herr Hcs].
  destruct (fetchChildren _ 0%nat (children pv)) as [[cs' calls] err].
  simpl in *. split; assumption.
Qed.

(** The parts of a clause tree that a fetch has no business with: the
    operators, the values and the arrangement of the children. *)
Inductive skeleton : Type :=
| Skeleton (op : Operator) (v : list byte) (g : option GeoRange)
    (subs : list skeleton).

Fixpoint skeletonOf (pv : propValuePair) : skeleton :=
  match pv with
  | mkPropValuePair _ op v g _ _ cs => Skeleton op v g (map skeletonOf cs)
  end.

Lemma skeletonOf_unfold pv :
  skeletonOf pv
  = Skeleton (operator pv) (value pv) (valueGeoRange pv)
      (map skeletonOf (children pv)).
Proof. destruct pv; reflexivity. Qed.

Lemma fetchLeaf_frame s limit td pv :
  let r := f_pv (fetchLeaf s limit td pv) in
  operator r = operator pv /\ value r = value pv
  /\ valueGeoRange r = valueGeoRange pv /\ children r = children pv
  /\ (prop pv <> "id" -> prop r = prop pv /\ hasFrequency r = hasFrequency pv)
  /\ (prop pv = "id" -> prop r = PropertyNameID /\ hasFrequency r = false).
Proof.
  unfold fetchLeaf.
  destruct (String.eqb_spec (prop pv) "id") as [Hid|Hid]; cbn zeta beta iota;
  match goal with
  | |- context [if ?c then _ else _] => destruct c; simpl
  end;
  try match goal with
  | |- context [Searcher_docPointers ?a ?b ?c ?d ?e ?f] =>
      destruct (Searcher_docPointers a b c d e f); simpl
  end;
  repeat split; try reflexivity; intros; congruence.
Qed.

Lemma fetchChildren_skeleton (fetch : Z -> propValuePair -> fetched) cs :
  Forall (fun c => skeletonOf (f_pv (fetch 0%Z c)) = skeletonOf c) cs ->
  forall k, map skeletonOf (fetchChildren fetch k cs).1.1 = map skeletonOf cs.
Proof.
  induction 1 as [|c cs Hc _ IH]; intros k; simpl; [reflexivity|].
  destruct (f_err (fetch 0%Z c)); simpl.
  - rewrite Hc. reflexivity.
  - specialize (IH (S k)).
    destruct (fetchChildren fetch (S k) cs) as [[rest' calls] err].
    simpl in *. rewrite Hc, IH. reflexivity.
Qed.

(** X5. A fetch, failed or not, leaves the shape of the clause tree as it
    was: at every depth the operators, the values and the number and order
    of the children are unchanged. On a non-leaf clause it changes nothing
    but the children; on a leaf it changes the posting list and, for the
    property [id] only, the name and the frequency flag. *)
Theorem fetchDocIDs_frame s limit td pv :
  skeletonOf (f_pv (fetchDocIDs s limit td pv)) = skeletonOf pv
  /\ (OnValue (operator pv) = false ->
      prop (f_pv (fetchDocIDs s limit td pv)) = prop pv
      /\ hasFrequency (f_pv (fetchDocIDs s limit td pv)) = hasFrequency pv
      /\ pv_docIDs (f_pv (fetchDocIDs s limit td pv)) = pv_docIDs pv)
  /\ (OnValue (operator pv) = true ->
      children (f_pv (fetchDocIDs s limit td pv)) = children pv
      /\ (prop pv <> "id" ->
          prop (f_pv (fetchDocIDs s limit td pv)) = prop pv
          /\ hasFrequency (f_pv (fetchDocIDs s limit td pv)) = hasFrequency pv)).
Proof.
  split.
  - revert limit.
    induction pv as [p op v g h d cs IH] using propValuePair_tree_ind.
    intros limit. rewrite fetchDocIDs_unfold. simpl.
    destruct (OnValue op).
    + destruct (fetchLeaf_frame s limit td (mkPropValuePair p op v g h d cs))
        as (Hop & Hv & Hg & Hcs & _).
      rewrite skeletonOf_unfold, Hop, Hv, Hg, Hcs. reflexivity.
    + assert (IH0 : Forall (fun c =>
                 skeletonOf (f_pv (fetchDocIDs s 0 td c)) = skeletonOf c) cs).
      { eapply Forall_impl; [exact IH|]. intros c Hc. apply Hc. }
      pose proof (fetchChildren_skeleton (fun l c => fetchDocIDs s l td c)
                    cs IH0 0%nat) as Hsk.
      destruct (fetchChildren _ 0%nat cs) as [[cs' calls] err].
      simpl in *. rewrite Hsk. reflexivity.
  - rewrite fetchDocIDs_unfold. split; intros Hop; rewrite Hop.
    + destruct (fetchChildren _ 0%nat (children pv)) as [[cs' calls] err].
      simpl. repeat split; reflexivity.
    + destruct (fetchLeaf_frame s limit td pv) as (_ & _ & _ & Hcs & Hkeep & _).
      split; assumption.
Qed.

(** *** Merging the same posting lists in another order *)

Definition noPointers : docPointers := mkDocPointers [] [].

Definition mergedOr (merge : propValuePair -> bool -> result docPointers)
  (ad : bool) (c : propValuePair) : docPointers :=
  match merge c ad with Ok d => d | Err _ => noPointers end.

Lemma retrieveChildIDs_all merge ad cs : forall k sets,
  retrieveChildIDs merge ad k cs = Ok sets ->
  Forall (fun c => is_Ok (merge c ad)) cs /\ sets = map (mergedOr merge ad) cs.
Proof.
  intros k sets Hsets. apply retrieveChildIDs_Ok in Hsets.
  induction Hsets as [|c d cs sets Hc _ [IH1 IH2]]; [split; [constructor|reflexivity]|].
  split.
  - constructor; [rewrite Hc; exact I|exact IH1].
  - simpl. unfold mergedOr at 1. rewrite Hc, IH2. reflexivity.
Qed.

Lemma retrieveChildIDs_from_all merge ad cs : forall k,
  Forall (fun c => is_Ok (merge c ad)) cs ->
  retrieveChildIDs merge ad k cs = Ok (map (mergedOr merge ad) cs).
Proof.
  intros k Hall. apply retrieveChildIDs_Ok.
  induction Hall as [|c cs Hc _ IH]; simpl; constructor; [|exact IH].
  unfold mergedOr. destruct (merge c ad); [reflexivity|destruct Hc].
Qed.

Lemma allPointers_Permutation sets sets' :
  sets ≡ₚ sets' -> allPointers sets ≡ₚ allPointers sets'.
Proof.
  intros Hperm. unfold allPointers. rewrite <- !flat_map_concat_map.
  apply Permutation_flat_map. exact Hperm.
Qed.

Lemma occurrences_Permutation i sets sets' :
  sets ≡ₚ sets' -> occurrences i sets = occurrences i sets'.
Proof.
  intros Hperm. unfold occurrences, occIn.
  apply Permutation_length. rewrite (allPointers_Permutation _ _ Hperm).
  reflexivity.
Qed.

Lemma checksumsIdentical_Permutation sets sets' :
  sets ≡ₚ sets' -> checksumsIdentical sets = checksumsIdentical sets'.
Proof.
  intros Hperm.
  assert (Hdir : forall l l' : list docPointers,
             l ≡ₚ l' -> checksumsIdentical l = true ->
             checksumsIdentical l' = true).
  { intros l l' Hp Hid. destruct l as [|f r]; [discriminate|].
    destruct l' as [|f' r']; [apply Permutation_nil_r in Hp; discriminate|].
    pose proof (checksumsIdentical_all f r Hid) as Hall.
    apply checksumsIdentical_true, Forall_forall. intros x Hx.
    assert (Hx' : checksum x = checksum f).
    { apply Hall. rewrite Hp. apply list_elem_of_further, Hx. }
    assert (Hf' : checksum f' = checksum f).
    { apply Hall. rewrite Hp. apply list_elem_of_here. }
    congruence. }
  destruct (checksumsIdentical sets) eqn:Hs,
           (checksumsIdentical sets') eqn:Hs'; try reflexivity.
  - rewrite (Hdir sets sets' Hperm Hs) in Hs'. discriminate.
  - symmetry in Hperm. rewrite (Hdir sets' sets Hperm Hs') in Hs. discriminate.
Qed.

Lemma mergeAndSets_ids sets :
  checksumsIdentical sets = false ->
  (forall ids, is_Ok (docPointerChecksum ids)) ->
  exists out,
    mergeAndSets sets = Ok out
    /\ setIDs out
       = map fst
           (filter (fun e => snd e = wrap64 (N.of_nat (length sets)))
              (map_range (countSets sets))).
Proof.
  intros Hdiff Hsum. unfold mergeAndSets. rewrite Hdiff.
  set (ids := map fst (filter _ (map_range (countSets sets)))).
  specialize (Hsum ids). destruct (docPointerChecksum ids) as [c|e]; [|destruct Hsum].
  eexists. split; [reflexivity|]. apply setIDs_rebuilt.
Qed.

Lemma mergeOrSets_ids sets ad :
  checksumsIdentical sets = false ->
  exists out,
    mergeOrSets sets ad = Ok out
    /\ (forall i, i ∈ setIDs out <-> occurrences i sets <> O)
    /\ (if ad then setIDs out = map id (allPointers sets)
        else NoDup (setIDs out)).
Proof.
  intros Hdiff. unfold mergeOrSets. rewrite Hdiff. destruct ad.
  - eexists. split; [reflexivity|]. unfold setIDs. simpl.
    split; [|reflexivity]. intros i. unfold occurrences.
    pose proof (occIn_zero i (allPointers sets)) as Hz.
    unfold allPointers in *. split.
    + intros Hin Hocc. apply Hz in Hocc. exact (Hocc Hin).
    + intros Hocc.
      destruct (decide (i ∈ map id (concat (map docIDs sets)))) as [Hin|Hout];
        [exact Hin|]. apply Hz in Hout. contradiction.
  - eexists. split; [reflexivity|].
    assert (Hids : setIDs
              (mkDocPointers
                 (map (fun e => mkDocPointer (fst e) freq0)
                    (map_range (countSets sets)))
                 (combineChecksums (map checksum sets) OperatorOr))
            = map fst (map_range (countSets sets))).
    { unfold setIDs. simpl. rewrite map_map. reflexivity. }
    rewrite Hids. split; [|apply map_range_NoDup_fst].
    intros i. rewrite found_keys. symmetry. apply occurrences_positive.
Qed.

(** X6. AND and OR do not depend on the order of the children: when the
    children are given in another order (and their posting lists are not
    all checksum-identical), [mergeAnd] returns the same ids up to their
    order in the list, and so does [mergeOr]. *)
Theorem merge_children_reordered children children' ad sets :
  children ≡ₚ children' ->
  retrieveChildIDs mergeDocIDs ad 0%nat children = Ok sets ->
  checksumsIdentical sets = false ->
  sets <> [] ->
  (N.of_nat (length sets) < 2 ^ 64)%N ->
  (N.of_nat (length (allPointers sets)) < 2 ^ 64)%N ->
  (forall ids, is_Ok (docPointerChecksum ids)) ->
  (exists out out',
      mergeAnd children ad = Ok out /\ mergeAnd children' ad = Ok out'
      /\ setIDs out ≡ₚ setIDs out')
  /\ (exists out out',
      mergeOr children ad = Ok out /\ mergeOr children' ad = Ok out'
      /\ setIDs out ≡ₚ setIDs out').
Proof.
  intros Hperm Hsets Hdiff Hne Hn Htotal Hsum.
  destruct (retrieveChildIDs_all _ _ _ _ _ Hsets) as [Hall ->].
  assert (Hall' : Forall (fun c => is_Ok (mergeDocIDs c ad)) children')
    by (rewrite <- Hperm; exact Hall).
  pose proof (retrieveChildIDs_from_all mergeDocIDs ad children' 0 Hall') as Hsets'.
  set (sets := map (mergedOr mergeDocIDs ad) children) in *.
  set (sets' := map (mergedOr mergeDocIDs ad) children') in *.
  assert (Hp : sets ≡ₚ sets') by (apply Permutation_map, Hperm).
  assert (Hdiff' : checksumsIdentical sets' = false)
    by (rewrite <- (checksumsIdentical_Permutation _ _ Hp); exact Hdiff).
  assert (Hlen : length sets' = length sets)
    by (symmetry; apply Permutation_length, Hp).
  assert (Hne' : sets' <> []).
  { intros Hnil. rewrite Hnil in Hp. apply Permutation_nil_r in Hp. congruence. }
  assert (Htotal' : (N.of_nat (length (allPointers sets')) < 2 ^ 64)%N).
  { rewrite <- (Permutation_length (allPointers_Permutation _ _ Hp)). exact Htotal. }
  unfold mergeAnd, mergeOr. rewrite Hsets, Hsets'. split.
  - destruct (mergeAndSets_ids sets Hdiff Hsum) as (out & Hout & Hids).
    destruct (mergeAndSets_ids sets' Hdiff' Hsum) as (out' & Hout' & Hids').
    exists out, out'. split; [exact Hout|]. split; [exact Hout'|].
    rewrite Hids, Hids'. apply NoDup_Permutation; [apply survivors_NoDup..|].
    intros i. rewrite (survivors_spec sets i Hne Hn Htotal).
    rewrite (survivors_spec sets' i Hne') by (rewrite ?Hlen; assumption).
    rewrite Hlen, (occurrences_Permutation i _ _ Hp). reflexivity.
  - destruct (mergeOrSets_ids sets ad Hdiff) as (out & Hout & Hin & Hshape).
    destruct (mergeOrSets_ids sets' ad Hdiff') as (out' & Hout' & Hin' & Hshape').
    exists out, out'. split; [exact Hout|]. split; [exact Hout'|].
    destruct ad.
    + rewrite Hshape, Hshape'. apply Permutation_map, allPointers_Permutation, Hp.
    + apply NoDup_Permutation; [assumption..|].
      intros i. rewrite Hin, Hin', (occurrences_Permutation i _ _ Hp). reflexivity.
Qed.

(** X7. Every id that survives the AND of some children is in their OR
    (the posting lists not being all checksum-identical). *)
Theorem mergeAnd_within_mergeOr children ad sets :
  retrieveChildIDs mergeDocIDs ad 0%nat children = Ok sets ->
  checksumsIdentical sets = false ->
  sets <> [] ->
  (N.of_nat (length sets) < 2 ^ 64)%N ->
  (N.of_nat (length (allPointers sets)) < 2 ^ 64)%N ->
  (forall ids, is_Ok (docPointerChecksum ids)) ->
  exists both any,
    mergeAnd children ad = Ok both /\ mergeOr children ad = Ok any
    /\ forall i, i ∈ setIDs both -> i ∈ setIDs any.
Proof.
  intros Hsets Hdiff Hne Hn Htotal Hsum.
  unfold mergeAnd, mergeOr. rewrite Hsets.
  destruct (mergeAndSets_ids sets Hdiff Hsum) as (both & Hboth & Hids).
  destruct (mergeOrSets_ids sets ad Hdiff) as (any & Hany & Hin & _).
  exists both, any. split; [exact Hboth|]. split; [exact Hany|].
  intros i Hi. rewrite Hids in Hi.
  apply (survivors_spec sets i Hne Hn Htotal) in Hi.
  apply Hin. rewrite Hi. destruct sets; [congruence|discriminate].
Qed.

End Searcher.

Arguments mkDocPointer {Freq} id frequency.
Arguments mkDocPointers {Freq} docIDs checksum.
Arguments mkPropValuePair {Freq GeoRange} prop operator value valueGeoRange
  hasFrequency pv_docIDs children.
Arguments mkSearcher {Bucket} store_Bucket.

(** *** A concrete searcher

    An instance of the parameters, on which the functions above can be run:
    a bucket holds the posting list that [docPointers] returns for it, a
    query without a bucket (a geo query) yields the empty list, the checksum
    of a list of ids is made of their low bytes, and checksums are combined
    by putting them one after the other. *)

Definition leafOperator (op : Operator) : bool :=
  match op with
  | OperatorAnd | OperatorOr => false
  | _ => true
  end.

Definition operatorName (op : Operator) : string :=
  match op with
  | OperatorEqual => "Equal"
  | OperatorNotEqual => "NotEqual"
  | OperatorGreaterThan => "GreaterThan"
  | OperatorGreaterThanEqual => "GreaterThanEqual"
  | OperatorLessThan => "LessThan"
  | OperatorLessThanEqual => "LessThanEqual"
  | OperatorLike => "Like"
  | OperatorWithinGeoRange => "WithinGeoRange"
  | OperatorIsNull => "IsNull"
  | OperatorAnd => "And"
  | OperatorOr => "Or"
  end.

Definition bucketName (propName : string) : string := "property_" +:+ propName.

Definition internalID : string := "_id".

Definition lowByte (n : N) : byte :=
  default x00 (Byte.of_N (n mod 256)%N).

Definition lowBytesChecksum (ids : list N) : result (list byte) :=
  Ok (map lowByte ids).

Definition appendChecksums (cs : list (list byte)) (op : Operator) : list byte :=
  concat cs.

Definition storedPointers (s : Searcher (Bucket := docPointers (Freq := Z)))
  (bucket : string) (b : option (docPointers (Freq := Z))) (limit : Z)
  (pv : propValuePair (Freq := Z) (GeoRange := unit)) (tolerateDuplicates : bool)
  : result (docPointers (Freq := Z)) :=
  match b with
  | Some d => Ok d
  | None => Ok (mkDocPointers [] [])
  end.

(** The examples merge leaf clauses only, for which [mergeDocIDs] does not
    reach [mergeAndOptimized]. *)
Definition noMergeAndOptimized
  (cs : list (propValuePair (Freq := Z) (GeoRange := unit))) (ad : bool)
  : result (docPointers (Freq := Z)) :=
  Err "mergeAndOptimized".

Definition pointers (ids : list N) (sum : list byte) : docPointers (Freq := Z) :=
  mkDocPointers (map (fun i => mkDocPointer i 0%Z) ids) sum.

Definition leaf (name : string) (op : Operator) (d : docPointers (Freq := Z))
  : propValuePair (Freq := Z) (GeoRange := unit) :=
  mkPropValuePair name op [] None true d [].

Definition node (op : Operator)
  (cs : list (propValuePair (Freq := Z) (GeoRange := unit)))
  : propValuePair (Freq := Z) (GeoRange := unit) :=
  mkPropValuePair "" op [] None false (mkDocPointers [] []) cs.

Definition emptyStore : Searcher (Bucket := docPointers (Freq := Z)) :=
  mkSearcher (fun _ => None).

Definition runFetch := fetchDocIDs leafOperator bucketName internalID storedPointers.
Definition runMergeDocIDs :=
  mergeDocIDs 0%Z leafOperator operatorName noMergeAndOptimized appendChecksums
    map_to_list.
Definition runMergeAnd :=
  mergeAnd 0%Z leafOperator operatorName noMergeAndOptimized lowBytesChecksum
    appendChecksums map_to_list.
Definition runMergeOr :=
  mergeOr 0%Z leafOperator operatorName noMergeAndOptimized appendChecksums
    map_to_list.

(** *** The claims on the concrete searcher *)

Definition listA : docPointers (Freq := Z) := pointers [1; 1]%N [x01].
Definition listB : docPointers (Freq := Z) := pointers [2]%N [x02].
Definition listC : docPointers (Freq := Z) := pointers [1]%N [x03].
Definition listD : docPointers (Freq := Z) := pointers [1; 2]%N [x04].
Definition listE : docPointers (Freq := Z) := pointers [2; 1]%N [x04].

Lemma lowBytesChecksum_total ids : is_Ok (lowBytesChecksum ids).
Proof. exact I. Qed.

(** C1, refuted as stated: the first child's list repeats the id 1 and the
    second child's list does not hold it; its occurrence count is 2, the
    number of children, and it is in the result of [mergeAnd]. *)
Lemma mergeAnd_repeated_id_counterexample :
  checksumsIdentical [listA; listB] = false
  /\ runMergeAnd [leaf "a" OperatorEqual listA; leaf "b" OperatorEqual listB] false
     = Ok (pointers [1]%N [x01])
  /\ 1%N ∉ setIDs listB.
Proof.
  split; [reflexivity|]. split; [vm_compute; reflexivity|].
  intros Hin. apply list_elem_of_In in Hin. simpl in Hin.
  destruct Hin as [Hin|[]]. discriminate Hin.
Qed.

Lemma mergeAnd_survivors_witness :
  exists out,
    runMergeAnd [leaf "c" OperatorEqual listC; leaf "d" OperatorEqual listD] false
      = Ok out
    /\ NoDup (setIDs out)
    /\ (forall i, i ∈ setIDs out <-> occurrences i [listC; listD] = 2%nat)
    /\ (Forall (fun set => NoDup (setIDs set)) [listC; listD] ->
        forall i, i ∈ setIDs out
                  <-> Forall (fun set => i ∈ setIDs set) [listC; listD]).
Proof.
  refine (mergeAnd_survivors 0%Z leafOperator operatorName noMergeAndOptimized
            lowBytesChecksum appendChecksums map_to_list _
            [leaf "c" OperatorEqual listC; leaf "d" OperatorEqual listD] false
            [listC; listD] _ _ _ _ _ _).
  - intros m. reflexivity.
  - reflexivity.
  - reflexivity.
  - discriminate.
  - vm_compute. reflexivity.
  - vm_compute. reflexivity.
  - exact lowBytesChecksum_total.
Defined.

(** C2, refuted as stated: when duplicates are accepted the id 1, held by
    both children, is twice in the result of [mergeOr]. *)
Lemma mergeOr_accept_duplicates_counterexample :
  checksumsIdentical [listC; listD] = false
  /\ runMergeOr [leaf "c" OperatorEqual listC; leaf "d" OperatorEqual listD] true
     = Ok (pointers [1; 1; 2]%N [x03; x04])
  /\ ~ NoDup [1; 1; 2]%N.
Proof.
  split; [reflexivity|]. split; [vm_compute; reflexivity|].
  intros Hnd. apply NoDup_cons in Hnd as [Hnotin _].
  apply Hnotin. apply list_elem_of_here.
Qed.

Lemma mergeOr_union_witness :
  exists out,
    runMergeOr [leaf "c" OperatorEqual listC; leaf "d" OperatorEqual listD] false
      = Ok out
    /\ (forall i, i ∈ setIDs out
                  <-> Exists (fun set => i ∈ setIDs set) [listC; listD])
    /\ (false = false -> NoDup (setIDs out)).
Proof.
  refine (mergeOr_union 0%Z leafOperator operatorName noMergeAndOptimized
            appendChecksums map_to_list _
            [leaf "c" OperatorEqual listC; leaf "d" OperatorEqual listD] false
            [listC; listD] _ _).
  - intros m. reflexivity.
  - reflexivity.
  - reflexivity.
Defined.

Lemma merge_identical_checksums_witness :
  runMergeAnd [leaf "d" OperatorEqual listD; leaf "e" OperatorEqual listE] false
    = Ok listD
  /\ runMergeOr [leaf "d" OperatorEqual listD; leaf "e" OperatorEqual listE] false
    = Ok listD.
Proof.
  refine (merge_identical_checksums 0%Z leafOperator operatorName
            noMergeAndOptimized lowBytesChecksum appendChecksums map_to_list
            [leaf "d" OperatorEqual listD; leaf "e" OperatorEqual listE] false
            listD [listE] _ _).
  - reflexivity.
  - repeat constructor.
Defined.

Lemma fetchDocIDs_missing_bucket_witness :
  (OperatorEqual <> OperatorWithinGeoRange ->
   f_err (runFetch emptyStore 10%Z false
            (leaf "hiddenStringProp" OperatorEqual (pointers [] [])))
     = Some "bucket for prop hiddenStringProp not found - is it indexed?"
   /\ f_calls (runFetch emptyStore 10%Z false
                 (leaf "hiddenStringProp" OperatorEqual (pointers [] []))) = [])
  /\ (OperatorEqual = OperatorWithinGeoRange ->
      f_calls (runFetch emptyStore 10%Z false
                 (leaf "hiddenStringProp" OperatorEqual (pointers [] [])))
        = [CallDocPointers "property_hiddenStringProp" 10%Z]
      /\ f_err (runFetch emptyStore 10%Z false
                  (leaf "hiddenStringProp" OperatorEqual (pointers [] [])))
        = None).
Proof.
  refine (fetchDocIDs_missing_bucket leafOperator bucketName internalID
            storedPointers emptyStore 10%Z false
            (leaf "hiddenStringProp" OperatorEqual (pointers [] [])) _ _).
  - reflexivity.
  - reflexivity.
Defined.

Definition nestedFilter : propValuePair (Freq := Z) (GeoRange := unit) :=
  node OperatorAnd
    [leaf "c" OperatorEqual listC;
     node OperatorOr
       [leaf "a" OperatorEqual listA; leaf "geo" OperatorWithinGeoRange listB]].

Definition fullStore : Searcher (Bucket := docPointers (Freq := Z)) :=
  mkSearcher (fun _ => Some listD).

Lemma fetchDocIDs_nested_unlimited_witness :
  Forall (fun k => call_limit k = 0%Z)
    (f_calls (runFetch fullStore 25%Z false nestedFilter))
  /\ runFetch fullStore 25%Z false nestedFilter
     = runFetch fullStore 0%Z false nestedFilter
  /\ f_err (runFetch fullStore 25%Z false nestedFilter) = None
  /\ children (f_pv (runFetch fullStore 25%Z false nestedFilter))
     = map (fun c => f_pv (runFetch fullStore 0%Z false c)) (children nestedFilter)
  /\ f_calls (runFetch fullStore 25%Z false nestedFilter)
     = concat (imap (fun i c =>
                       CallFetchDocIDs i 0 :: f_calls (runFetch fullStore 0%Z false c))
                 (children nestedFilter)).
Proof.
  destruct (fetchDocIDs_nested_unlimited leafOperator bucketName internalID
              storedPointers fullStore 25%Z false nestedFilter)
    as (Hcalls & Heq & Hsuccess & Hall & _); [reflexivity|].
  assert (Herr : f_err (runFetch fullStore 25%Z false nestedFilter) = None).
  { apply Hsuccess. repeat constructor. }
  destruct (Hall Herr) as (Hcs & Hlog & _).
  split; [exact Hcalls|]. split; [exact Heq|]. split; [exact Herr|].
  split; [exact Hcs|exact Hlog].
Defined.

(** *** The further properties on the concrete searcher *)

Definition unindexedFilter : propValuePair (Freq := Z) (GeoRange := unit) :=
  node OperatorOr
    [leaf "geo" OperatorWithinGeoRange listB;
     leaf "hiddenStringProp" OperatorEqual listC;
     leaf "id" OperatorEqual listA].

Lemma merge_first_failure_witness :
  runMergeAnd [leaf "c" OperatorEqual listC; node OperatorAnd []] false
    = Err "retrieve doc ids of child 1: mergeAndOptimized"
  /\ runMergeOr [leaf "c" OperatorEqual listC; node OperatorAnd []] false
    = Err "retrieve doc ids of child 1: mergeAndOptimized".
Proof.
  refine (merge_first_failure 0%Z leafOperator operatorName noMergeAndOptimized
            lowBytesChecksum appendChecksums map_to_list
            [leaf "c" OperatorEqual listC; node OperatorAnd []] false
            1%nat (node OperatorAnd []) "mergeAndOptimized" _ _ _).
  - reflexivity.
  - reflexivity.
  - repeat constructor.
Defined.

Lemma fetchDocIDs_first_failure_witness :
  f_err (runFetch emptyStore 10%Z false unindexedFilter)
    = Some "nested child 1: bucket for prop hiddenStringProp not found - is it indexed?"
  /\ children (f_pv (runFetch emptyStore 10%Z false unindexedFilter))
     = map (fun c => f_pv (runFetch emptyStore 0%Z false c))
         (take 2 (children unindexedFilter))
       ++ drop 2 (children unindexedFilter).
Proof.
  refine (fetchDocIDs_first_failure leafOperator bucketName internalID
            storedPointers emptyStore 10%Z false unindexedFilter 1%nat
            (leaf "hiddenStringProp" OperatorEqual listC)
            "bucket for prop hiddenStringProp not found - is it indexed?"
            _ _ _ _).
  - reflexivity.
  - reflexivity.
  - reflexivity.
  - repeat constructor.
Defined.

Lemma merge_children_reordered_witness :
  (exists out out',
      runMergeAnd [leaf "c" OperatorEqual listC; leaf "d" OperatorEqual listD] false
        = Ok out
      /\ runMergeAnd [leaf "d" OperatorEqual listD; leaf "c" OperatorEqual listC] false
        = Ok out'
      /\ setIDs out ≡ₚ setIDs out')
  /\ (exists out out',
      runMergeOr [leaf "c" OperatorEqual listC; leaf "d" OperatorEqual listD] false
        = Ok out
      /\ runMergeOr [leaf "d" OperatorEqual listD; leaf "c" OperatorEqual listC] false
        = Ok out'
      /\ setIDs out ≡ₚ setIDs out').
Proof.
  refine (merge_children_reordered 0%Z leafOperator operatorName
            noMergeAndOptimized lowBytesChecksum appendChecksums map_to_list _
            [leaf "c" OperatorEqual listC; leaf "d" OperatorEqual listD]
            [leaf "d" OperatorEqual listD; leaf "c" OperatorEqual listC] false
            [listC; listD] _ _ _ _ _ _ _).
  - intros m. reflexivity.
  - apply perm_swap.
  - reflexivity.
  - reflexivity.
  - discriminate.
  - vm_compute. reflexivity.
  - vm_compute. reflexivity.
  - exact lowBytesChecksum_total.
Defined.

Lemma mergeAnd_within_mergeOr_witness :
  exists both any,
    runMergeAnd [leaf "c" OperatorEqual listC; leaf "d" OperatorEqual listD] false
      = Ok both
    /\ runMergeOr [leaf "c" OperatorEqual listC; leaf "d" OperatorEqual listD] false
      = Ok any
    /\ forall i, i ∈ setIDs both -> i ∈ setIDs any.
Proof.
  refine (mergeAnd_within_mergeOr 0%Z leafOperator operatorName
            noMergeAndOptimized lowBytesChecksum appendChecksums map_to_list _
            [leaf "c" OperatorEqual listC; leaf "d" OperatorEqual listD] false
            [listC; listD] _ _ _ _ _ _).
  - intros m. reflexivity.
  - reflexivity.
  - reflexivity.
  - discriminate.
  - vm_compute. reflexivity.
  - vm_compute. reflexivity.
  - exact lowBytesChecksum_total.
Defined.

Lemma fetchDocIDs_frame_witness :
  skeletonOf (f_pv (runFetch fullStore 25%Z false nestedFilter))
    = skeletonOf nestedFilter
  /\ prop (f_pv (runFetch fullStore 25%Z false nestedFilter)) = prop nestedFilter
  /\ hasFrequency (f_pv (runFetch fullStore 25%Z false nestedFilter))
     = hasFrequency nestedFilter
  /\ pv_docIDs (f_pv (runFetch fullStore 25%Z false nestedFilter))
     = pv_docIDs nestedFilter.
Proof.
  destruct (fetchDocIDs_frame leafOperator bucketName internalID
              storedPointers fullStore 25%Z false nestedFilter)
    as (Hshape & Hnode & _).
  split; [exact Hshape|]. apply Hnode. reflexivity.
Defined.

End Inverted.

(** ** The grouper of the aggregator *)

Module Aggregator.

Section Grouper.

(** The values of the group-by property: the keys of the Go map
    [map[interface{}][]uint64]. *)
Context {Value : Type}.

(** [group]: [res.GroupedBy.Path], [res.GroupedBy.Value], [res.Count] and
    [docIDs]. *)
Record group : Type := mkGroup {
  res_GroupedBy_Path : list string;
  res_GroupedBy_Value : Value;
  res_Count : Z;
  docIDs : list N
}.

(** [grouper]. [values] lists the entries of the map [g.values] in the order
    in which [range] visits them, an order that Go leaves unspecified;
    [groupBy] is [g.params.GroupBy.Slice()]. *)
Record grouper : Type := mkGrouper {
  groupBy : list string;
  values : list (Value * list N);
  topGroups : list group;
  limit : Z
}.

Definition newGrouper (path : list string) (limit : Z) : grouper :=
  mkGrouper path [] [] limit.

Definition set_topGroups (g : grouper) (tg : list group) : grouper :=
  mkGrouper (groupBy g) (values g) tg (limit g).

(** The scan [for i, existing := range g.topGroups]: the index of the first
    entry at which the loop does not [continue]. *)
Fixpoint findSlot (elem : group) (tg : list group) (i : nat) : option nat :=
  match tg with
  | [] => None
  | existing :: rest =>
      if (res_Count existing >? res_Count elem)%Z
      then findSlot elem rest (S i)
      else Some i
  end.

Definition insertOrdered (g : grouper) (elem : group) : grouper :=
  if (length (topGroups g) =? 0)%nat then set_topGroups g [elem]
  else
    let '(tg, added) :=
      match findSlot elem (topGroups g) 0 with
      | Some i =>
          (take i (topGroups g) ++ ([elem] ++ drop i (topGroups g)), true)
      | None => (topGroups g, false)
      end in
    let tg :=
      if (Z.of_nat (length tg) >? limit g)%Z
      then take (length tg - 1) tg
      else tg in
    let tg :=
      if negb added && (Z.of_nat (length tg) <? limit g)%Z
      then tg ++ [elem]
      else tg in
    set_topGroups g tg.

Definition candidate (g : grouper) (entry : Value * list N) : group :=
  mkGroup (groupBy g) (fst entry) (Z.of_nat (length (snd entry))) (snd entry).

(** [aggregateAndSelect]: the grouper as the loop leaves it, and the
    returned slice (the error is always nil). *)
Definition aggregateAndSelect (g : grouper) : grouper * result (list group) :=
  let g' := fold_left (fun g entry => insertOrdered g (candidate g entry))
              (values g) g in
  (g', Ok (topGroups g')).

(** The ranked list is in non-increasing order of count. *)
Definition descending (tg : list group) : Prop :=
  StronglySorted (fun a b => (res_Count b <= res_Count a)%Z) tg.

(** What [insertOrdered] does to a list that is too long: its last element
    is dropped. *)
Definition cut (limit : Z) (tg : list group) : list group :=
  if (Z.of_nat (length tg) >? limit)%Z then take (length tg - 1) tg else tg.

(** *** The scan and the three shapes of an insertion *)

Lemma findSlot_found elem pre e post k :
  Forall (fun x => (res_Count x > res_Count elem)%Z) pre ->
  (res_Count e <= res_Count elem)%Z ->
  findSlot elem (pre ++ e :: post) k = Some (k + length pre)%nat.
Proof.
  intros Hpre He. revert k.
  induction Hpre as [|x pre Hx _ IH]; intros k; simpl.
  - destruct (Z.gtb_spec (res_Count e) (res_Count elem)); [lia|].
    f_equal. lia.
  - destruct (Z.gtb_spec (res_Count x) (res_Count elem)); [|lia].
    rewrite IH. f_equal. lia.
Qed.

Lemma findSlot_none elem tg k :
  Forall (fun x => (res_Count x > res_Count elem)%Z) tg ->
  findSlot elem tg k = None.
Proof.
  intros H. revert k. induction H as [|x tg Hx _ IH]; intros k; simpl;
    [reflexivity|].
  destruct (Z.gtb_spec (res_Count x) (res_Count elem)); [apply IH|lia].
Qed.

(** Every ranked list splits at the first entry whose count is not greater
    than the candidate's, when there is one. *)
Lemma scan_cases elem tg :
  Forall (fun x => (res_Count x > res_Count elem)%Z) tg
  \/ exists pre e post,
       tg = pre ++ e :: post
       /\ Forall (fun x => (res_Count x > res_Count elem)%Z) pre
       /\ (res_Count e <= res_Count elem)%Z.
Proof.
  induction tg as [|x tg IH]; [left; constructor|].
  destruct (Z_gt_le_dec (res_Count x) (res_Count elem)) as [Hgt|Hle].
  - destruct IH as [Hall|(pre & e & post & -> & Hpre & He)].
    + left. constructor; assumption.
    + right. exists (x :: pre), e, post. split; [reflexivity|].
      split; [constructor; assumption|exact He].
  - right. exists [], x, tg. split; [reflexivity|]. split; [constructor|exact Hle].
Qed.

Lemma insertOrdered_empty g elem :
  topGroups g = [] -> topGroups (insertOrdered g elem) = [elem].
Proof. intros H. unfold insertOrdered. rewrite H. reflexivity. Qed.

Lemma insertOrdered_splice g elem pre e post :
  topGroups g = pre ++ e :: post ->
  Forall (fun x => (res_Count x > res_Count elem)%Z) pre ->
  (res_Count e <= res_Count elem)%Z ->
  topGroups (insertOrdered g elem) = cut (limit g) (pre ++ elem :: e :: post).
Proof.
  intros Htg Hpre He. unfold insertOrdered. rewrite Htg.
  destruct (length (pre ++ e :: post) =? 0)%nat eqn:Hlen.
  { apply Nat.eqb_eq in Hlen. rewrite length_app in Hlen. simpl in Hlen. lia. }
  rewrite (findSlot_found elem pre e post 0 Hpre He). simpl.
  rewrite take_app_length, drop_app_length. simpl. reflexivity.
Qed.

Lemma insertOrdered_last g elem :
  topGroups g <> [] ->
  Forall (fun x => (res_Count x > res_Count elem)%Z) (topGroups g) ->
  topGroups (insertOrdered g elem) =
  if (Z.of_nat (length (cut (limit g) (topGroups g))) <? limit g)%Z
  then cut (limit g) (topGroups g) ++ [elem]
  else cut (limit g) (topGroups g).
Proof.
  intros Hne Hall. unfold insertOrdered.
  destruct (length (topGroups g) =? 0)%nat eqn:Hlen.
  { apply Nat.eqb_eq in Hlen. destruct (topGroups g); [congruence|discriminate]. }
  rewrite (findSlot_none elem (topGroups g) 0 Hall). simpl. unfold cut.
  destruct (Z.of_nat (length (topGroups g)) >? limit g)%Z;
    match goal with |- context [(?a <? ?b)%Z] => destruct (a <? b)%Z end;
    reflexivity.
Qed.

Lemma insertOrdered_limit g elem : limit (insertOrdered g elem) = limit g.
Proof.
  unfold insertOrdered.
  destruct (length (topGroups g) =? 0)%nat; [reflexivity|].
  destruct (findSlot elem (topGroups g) 0); reflexivity.
Qed.

Lemma insertOrdered_groupBy g elem : groupBy (insertOrdered g elem) = groupBy g.
Proof.
  unfold insertOrdered.
  destruct (length (topGroups g) =? 0)%nat; [reflexivity|].
  destruct (findSlot elem (topGroups g) 0); reflexivity.
Qed.

Lemma cut_short lim tg : (Z.of_nat (length tg) <= lim)%Z -> cut lim tg = tg.
Proof.
  intros H. unfold cut.
  destruct (Z.gtb_spec (Z.of_nat (length tg)) lim); [lia|reflexivity].
Qed.

Lemma cut_long lim tg x :
  (Z.of_nat (length (tg ++ [x])) > lim)%Z -> cut lim (tg ++ [x]) = tg.
Proof.
  intros H. unfold cut.
  destruct (Z.gtb_spec (Z.of_nat (length (tg ++ [x]))) lim); [|lia].
  rewrite length_app. simpl.
  replace (length tg + 1 - 1)%nat with (length tg) by lia.
  apply take_app_length.
Qed.

Lemma cut_length lim tg :
  (0 <= lim)%Z ->
  (Z.of_nat (length tg) <= lim + 1)%Z -> (Z.of_nat (length (cut lim tg)) <= lim)%Z.
Proof.
  intros Hlim H. unfold cut.
  destruct (Z.gtb_spec (Z.of_nat (length tg)) lim); [|lia].
  rewrite length_take. lia.
Qed.

Lemma cut_descending lim tg : descending tg -> descending (cut lim tg).
Proof.
  intros H. unfold cut.
  destruct (Z.of_nat (length tg) >? lim)%Z; [|exact H].
  unfold descending in *.
  rewrite <- (take_drop (length tg - 1) tg) in H.
  exact (StronglySorted_app_1_l _ _ _ H).
Qed.

Lemma splice_descending elem pre e post :
  descending (pre ++ e :: post) ->
  Forall (fun x => (res_Count x > res_Count elem)%Z) pre ->
  (res_Count e <= res_Count elem)%Z ->
  descending (pre ++ elem :: e :: post).
Proof.
  unfold descending. intros Hs Hpre He.
  apply StronglySorted_app in Hs as (Hcross & Hs1 & Hs2).
  apply StronglySorted_app. split; [|split; [exact Hs1|]].
  - intros x1 x2 Hx1 Hx2. apply elem_of_cons in Hx2 as [->|Hx2].
    + rewrite Forall_forall in Hpre. specialize (Hpre x1 Hx1). lia.
    + exact (Hcross x1 x2 Hx1 Hx2).
  - constructor; [exact Hs2|].
    apply StronglySorted_cons in Hs2 as [Hle _].
    constructor; [exact He|].
    eapply Forall_impl; [exact Hle|]. simpl. intros x Hx. lia.
Qed.

Lemma append_descending elem tg :
  descending tg ->
  Forall (fun x => (res_Count x > res_Count elem)%Z) tg ->
  descending (tg ++ [elem]).
Proof.
  unfold descending. intros Hs Hall.
  apply StronglySorted_app. split; [|split; [exact Hs|repeat constructor]].
  intros x1 x2 Hx1 Hx2. apply list_elem_of_singleton in Hx2 as ->.
  rewrite Forall_forall in Hall. specialize (Hall x1 Hx1). lia.
Qed.

(** One insertion keeps the ranked list ordered and within the limit. *)
Lemma insertOrdered_step g elem :
  (1 <= limit g)%Z ->
  descending (topGroups g) ->
  (Z.of_nat (length (topGroups g)) <= limit g)%Z ->
  descending (topGroups (insertOrdered g elem))
  /\ (Z.of_nat (length (topGroups (insertOrdered g elem))) <= limit g)%Z.
Proof.
  intros Hlim Hs Hlen.
  destruct (topGroups g) as [|x tg] eqn:Htg.
  { rewrite (insertOrdered_empty g elem Htg). split.
    - repeat constructor.
    - simpl. lia. }
  rewrite <- Htg in *.
  destruct (scan_cases elem (topGroups g))
    as [Hall|(pre & e & post & Hsplit & Hpre & He)].
  - rewrite insertOrdered_last by (assumption || congruence).
    rewrite (cut_short _ _ Hlen).
    destruct (Z.ltb_spec (Z.of_nat (length (topGroups g))) (limit g)).
    + split; [apply append_descending; assumption|].
      rewrite length_app. simpl. lia.
    + split; assumption.
  - rewrite (insertOrdered_splice g elem pre e post Hsplit Hpre He).
    rewrite Hsplit in Hs, Hlen. split.
    + apply cut_descending, splice_descending; assumption.
    + apply cut_length; [lia|]. rewrite length_app in *. simpl in *. lia.
Qed.

(** *** Claims about [insertOrdered] *)

(** C10. With a limit of at least 1, every call of [insertOrdered], and so
    every sequence of calls, keeps the ranked list in non-increasing order
    of count and of length at most the limit; the list of a new grouper is
    empty and so has both properties. *)
Theorem insertOrdered_invariant g (elems : list group) :
  (1 <= limit g)%Z ->
  descending (topGroups g) ->
  (Z.of_nat (length (topGroups g)) <= limit g)%Z ->
  descending (topGroups (fold_left insertOrdered elems g))
  /\ (Z.of_nat (length (topGroups (fold_left insertOrdered elems g))) <= limit g)%Z.
Proof.
  revert g. induction elems as [|elem elems IH]; intros g Hlim Hs Hlen; simpl.
  - split; assumption.
  - destruct (insertOrdered_step g elem Hlim Hs Hlen) as [Hs' Hlen'].
    rewrite <- (insertOrdered_limit g elem) in Hlim, Hlen' |- *.
    apply IH; assumption.
Qed.

(** C8 (as the code has it). The scan of [insertOrdered] passes the entries
    whose count is strictly greater than the candidate's and stops at the
    first entry whose count is not greater. When the ranked list is ordered
    and [e] is its first entry with the candidate's count, the candidate is
    placed immediately before [e], and so before every entry of equal count
    (after which the last element is dropped if the list has grown beyond
    the limit). *)
Theorem insertOrdered_equal_count g elem pre e post :
  descending (topGroups g) ->
  topGroups g = pre ++ e :: post ->
  res_Count e = res_Count elem ->
  Forall (fun x => res_Count x <> res_Count elem) pre ->
  findSlot elem (topGroups g) 0 = Some (length pre)
  /\ topGroups (insertOrdered g elem) = cut (limit g) (pre ++ elem :: e :: post).
Proof.
  intros Hs Htg He Hfirst.
  assert (Hpre : Forall (fun x => (res_Count x > res_Count elem)%Z) pre).
  { rewrite Htg in Hs. unfold descending in Hs.
    apply StronglySorted_app in Hs as (Hcross & _ & _).
    rewrite Forall_forall in Hfirst |- *. intros x Hx.
    specialize (Hcross x e Hx (list_elem_of_here e post)).
    specialize (Hfirst x Hx). lia. }
  split.
  - rewrite Htg. apply (findSlot_found elem pre e post 0 Hpre). lia.
  - apply insertOrdered_splice; [assumption|assumption|lia].
Qed.

(** *** Selection of the groups with the highest counts *)

(** After the candidates [processed] have been inserted, the ranked list
    [tg] is ordered, holds as many of them as the limit allows, and every
    candidate that is not in it (the list [dropped]) has a count that is
    not greater than any count in it. *)
Definition selected (lim : Z) (processed tg : list group) : Prop :=
  descending tg
  /\ Z.of_nat (length tg) = Z.min lim (Z.of_nat (length processed))
  /\ exists dropped,
       tg ++ dropped ≡ₚ processed
       /\ Forall (fun d => Forall (fun k => (res_Count d <= res_Count k)%Z) tg)
            dropped.

Lemma cut_snoc lim (tg : list group) :
  (Z.of_nat (length tg) > lim)%Z -> tg <> [] ->
  exists init last, tg = init ++ [last] /\ cut lim tg = init.
Proof.
  intros Hlen Hne. destruct (exists_last Hne) as (init & last & ->).
  exists init, last. split; [reflexivity|]. apply cut_long, Hlen.
Qed.

Lemma nothing_dropped lim (processed tg dropped : list group) :
  Z.of_nat (length tg) = Z.min lim (Z.of_nat (length processed)) ->
  (Z.of_nat (length tg) < lim)%Z ->
  tg ++ dropped ≡ₚ processed ->
  dropped = [].
Proof.
  intros Hlen Hlt Hperm. apply Permutation_length in Hperm.
  rewrite length_app in Hperm. destruct dropped; [reflexivity|simpl in *; lia].
Qed.

Lemma insertOrdered_selected g elem processed :
  (1 <= limit g)%Z ->
  selected (limit g) processed (topGroups g) ->
  selected (limit g) (processed ++ [elem]) (topGroups (insertOrdered g elem)).
Proof.
  intros Hlim (Hs & Hlen & dropped & Hperm & Hdrop).
  assert (Hle : (Z.of_nat (length (topGroups g)) <= limit g)%Z) by lia.
  destruct (insertOrdered_step g elem Hlim Hs Hle) as [Hs' _].
  split; [exact Hs'|]. clear Hs'.
  rewrite length_app. simpl.
  destruct (topGroups g) as [|x0 tg0] eqn:Htg.
  { rewrite (insertOrdered_empty g elem Htg).
    assert (dropped = []) as -> by (eapply nothing_dropped; eauto; simpl; lia).
    simpl in *. apply Permutation_nil_l in Hperm. subst processed.
    split; [simpl; lia|]. exists []. split; [reflexivity|constructor]. }
  rewrite <- Htg in *.
  assert (Hne : topGroups g <> []) by congruence.
  destruct (scan_cases elem (topGroups g))
    as [Hall|(pre & e & post & Hsplit & Hpre & He)].
  - rewrite (insertOrdered_last g elem Hne Hall), (cut_short _ _ Hle).
    destruct (Z.ltb_spec (Z.of_nat (length (topGroups g))) (limit g)) as [Hlt|Hge].
    + assert (dropped = []) as -> by (eapply nothing_dropped; eauto).
      rewrite app_nil_r in Hperm. apply Permutation_length in Hperm as Hl.
      split; [rewrite length_app; simpl; lia|].
      exists []. split; [|constructor].
      rewrite app_nil_r, Hperm. reflexivity.
    + apply Permutation_length in Hperm as Hl. rewrite length_app in Hl.
      split; [lia|]. exists (elem :: dropped). split.
      * rewrite <- Hperm, <- Permutation_middle, <- Permutation_cons_append.
        reflexivity.
      * constructor; [|exact Hdrop].
        eapply Forall_impl; [exact Hall|]. simpl. intros k Hk. lia.
  - rewrite (insertOrdered_splice g elem pre e post Hsplit Hpre He).
    assert (Hins : pre ++ elem :: e :: post ≡ₚ elem :: topGroups g).
    { rewrite Hsplit. symmetry. apply Permutation_middle. }
    assert (Hkept : forall d, d ∈ dropped -> forall k,
               k ∈ pre ++ elem :: e :: post -> (res_Count d <= res_Count k)%Z).
    { intros d Hd k Hk. rewrite Forall_forall in Hdrop.
      specialize (Hdrop d Hd). rewrite Forall_forall in Hdrop.
      rewrite Hins in Hk. apply elem_of_cons in Hk as [->|Hk]; [|auto].
      assert (He' : e ∈ topGroups g)
        by (rewrite Hsplit; apply elem_of_app; right; apply list_elem_of_here).
      specialize (Hdrop e He'). lia. }
    assert (Hs1 : descending (pre ++ elem :: e :: post)).
    { apply splice_descending; [rewrite <- Hsplit|..]; assumption. }
    apply Permutation_length in Hins as Hl1. simpl in Hl1.
    apply Permutation_length in Hperm as Hl. rewrite length_app in Hl.
    destruct (Z_gt_le_dec (Z.of_nat (length (pre ++ elem :: e :: post))) (limit g))
      as [Hgt|Hfit].
    + destruct (cut_snoc (limit g) (pre ++ elem :: e :: post) Hgt)
        as (init & last & Heq & ->).
      { destruct pre; discriminate. }
      rewrite Heq in Hl1, Hins, Hs1, Hkept, Hgt.
      rewrite length_app in Hl1, Hgt. simpl in Hl1, Hgt.
      split; [lia|]. exists (last :: dropped). split.
      * replace (init ++ last :: dropped) with ((init ++ [last]) ++ dropped)
          by (rewrite <- app_assoc; reflexivity).
        rewrite Hins. simpl. rewrite Hperm. apply Permutation_cons_append.
      * constructor.
        -- unfold descending in Hs1.
           apply StronglySorted_app in Hs1 as (Hcross & _ & _).
           apply Forall_forall. intros k Hk.
           apply (Hcross k last Hk). apply list_elem_of_here.
        -- apply Forall_forall. intros d Hd. apply Forall_forall. intros k Hk.
           apply (Hkept d Hd k). apply elem_of_app. left. exact Hk.
    + rewrite (cut_short _ _ Hfit).
      assert (dropped = []) as -> by (eapply nothing_dropped; eauto; lia).
      rewrite app_nil_r in Hperm.
      split; [lia|]. exists []. split; [|constructor].
      rewrite app_nil_r, Hins, Hperm. apply Permutation_cons_append.
Qed.

Lemma fold_insertOrdered_selected elems : forall g processed,
  (1 <= limit g)%Z ->
  selected (limit g) processed (topGroups g) ->
  selected (limit g) (processed ++ elems)
    (topGroups (fold_left insertOrdered elems g)).
Proof.
  induction elems as [|elem elems IH]; intros g processed Hlim Hsel; simpl.
  - rewrite app_nil_r. exact Hsel.
  - replace (processed ++ elem :: elems) with ((processed ++ [elem]) ++ elems)
      by (rewrite <- app_assoc; reflexivity).
    rewrite <- (insertOrdered_limit g elem).
    apply IH; rewrite insertOrdered_limit; [exact Hlim|].
    apply insertOrdered_selected; assumption.
Qed.

Lemma aggregate_fold vs : forall g,
  fold_left (fun g entry => insertOrdered g (candidate g entry)) vs g
  = fold_left insertOrdered (map (candidate g) vs) g.
Proof.
  induction vs as [|entry vs IH]; intros g; simpl; [reflexivity|].
  rewrite IH. f_equal. apply map_ext. intros v. unfold candidate.
  rewrite insertOrdered_groupBy. reflexivity.
Qed.

(** X1. The selection of [aggregateAndSelect] with a limit of at least 1,
    from an empty ranked list, whatever the order in which the tally is visited:
    the result is ordered by non-increasing count, holds [limit] groups (all
    of them when there are fewer), each group of the tally at most once, and
    no group that is left out has a greater count than a group that is
    kept. *)
Theorem aggregateAndSelect_selects g :
  (1 <= limit g)%Z ->
  topGroups g = [] ->
  exists tg dropped,
    (aggregateAndSelect g).2 = Ok tg
    /\ descending tg
    /\ Z.of_nat (length tg) = Z.min (limit g) (Z.of_nat (length (values g)))
    /\ tg ++ dropped ≡ₚ map (candidate g) (values g)
    /\ Forall (fun d => Forall (fun k => (res_Count d <= res_Count k)%Z) tg)
         dropped.
Proof.
  intros Hlim Hempty. unfold aggregateAndSelect. simpl.
  rewrite aggregate_fold.
  destruct (fold_insertOrdered_selected (map (candidate g) (values g)) g []
              Hlim) as (Hs & Hlen & dropped & Hperm & Hdrop).
  { rewrite Hempty. split; [constructor|]. split; [simpl; lia|].
    exists []. split; [reflexivity|constructor]. }
  simpl in *. rewrite length_map in Hlen.
  eexists. exists dropped. split; [reflexivity|]. repeat split; assumption.
Qed.

(** *** A limit below 1 *)

Lemma insertOrdered_nonpositive g elem :
  (limit g <= 0)%Z ->
  (length (topGroups g) <= 1)%nat ->
  topGroups (insertOrdered g elem)
  = match topGroups g with
    | [] => [elem]
    | existing :: _ =>
        if (res_Count existing >? res_Count elem)%Z then [] else [elem]
    end.
Proof.
  intros Hlim Hlen. unfold insertOrdered.
  destruct (topGroups g) as [|x [|y tg]]; [reflexivity| |simpl in Hlen; lia].
  simpl. destruct (res_Count x >? res_Count elem)%Z; simpl.
  - replace (Z.of_nat 1 >? limit g)%Z with true
      by (symmetry; apply Z.gtb_lt; lia).
    simpl.
    replace (Z.of_nat 0 <? limit g)%Z with false
      by (symmetry; apply Z.ltb_ge; lia).
    reflexivity.
  - replace (Z.of_nat 2 >? limit g)%Z with true
      by (symmetry; apply Z.gtb_lt; lia).
    reflexivity.
Qed.

Lemma fold_insertOrdered_nonpositive elems : forall g,
  (limit g <= 0)%Z ->
  (length (topGroups g) <= 1)%nat ->
  elems <> [] ->
  topGroups (fold_left insertOrdered elems g) = []
  \/ exists elem,
       last elems = Some elem
       /\ topGroups (fold_left insertOrdered elems g) = [elem].
Proof.
  induction elems as [|elem elems IH]; intros g Hlim Hlen Hne; [congruence|].
  assert (Hstep : topGroups (insertOrdered g elem) = []
                  \/ topGroups (insertOrdered g elem) = [elem]).
  { rewrite (insertOrdered_nonpositive g elem Hlim Hlen).
    destruct (topGroups g) as [|x tg]; [right; reflexivity|].
    destruct (res_Count x >? res_Count elem)%Z; [left|right]; reflexivity. }
  destruct elems as [|elem' elems].
  - simpl. destruct Hstep as [Hs|Hs]; [left; exact Hs|right].
    exists elem. split; [reflexivity|exact Hs].
  - change (fold_left insertOrdered (elem :: elem' :: elems) g)
      with (fold_left insertOrdered (elem' :: elems) (insertOrdered g elem)).
    change (last (elem :: elem' :: elems)) with (last (elem' :: elems)).
    apply IH; [rewrite insertOrdered_limit; exact Hlim| |discriminate].
    destruct Hstep as [-> | ->]; simpl; lia.
Qed.

(** X8. With a limit of 0 or less, [aggregateAndSelect] (from an empty
    ranked list) returns either no group or exactly the group of the entry
    of the tally that it visits last, whatever the counts are; for a tally
    of one entry it returns that group, which is more than the limit. *)
Theorem aggregateAndSelect_nonpositive_limit g :
  (limit g <= 0)%Z ->
  topGroups g = [] ->
  exists tg,
    (aggregateAndSelect g).2 = Ok tg
    /\ (tg = []
        \/ exists entry,
             last (values g) = Some entry /\ tg = [candidate g entry])
    /\ (forall entry, values g = [entry] -> tg = [candidate g entry]).
Proof.
  intros Hlim Hempty. unfold aggregateAndSelect. simpl.
  rewrite aggregate_fold. eexists. split; [reflexivity|]. split.
  - destruct (values g) as [|entry vs] eqn:Hvs; [left; simpl; exact Hempty|].
    destruct (fold_insertOrdered_nonpositive (map (candidate g) (entry :: vs)) g
                Hlim) as [Hnil|(elem & Hlast & Htg)].
    + rewrite Hempty. simpl. lia.
    + discriminate.
    + left. exact Hnil.
    + right. rewrite Htg.
      change (map (candidate g) (entry :: vs)) with (candidate g <$> entry :: vs)
        in Hlast.
      rewrite fmap_last in Hlast.
      destruct (last (entry :: vs)) as [e|]; [|discriminate].
      injection Hlast as <-. exists e. split; reflexivity.
  - intros entry ->. simpl. apply insertOrdered_empty, Hempty.
Qed.

End Grouper.

Arguments group : clear implicits.
Arguments grouper : clear implicits.

(** *** Scanning the object bucket *)

Section Scan.

(** [ScanAllLSM] uses of other packages: [storobj.Object] with
    [storobj.FromBinary], the name [helpers.ObjectsBucketLSM], and the store
    with its buckets and their cursors. A bucket is represented by the rows
    (key and value) that its cursor yields, from [First] through the calls
    of [Next] up to the first nil key; the store maps a name to its bucket,
    [None] for the nil bucket. *)
Context {Object : Type} {State : Type}.
Variable FromBinary : list byte -> result Object.
Variable ObjectsBucketLSM : string.

Definition Store : Type := string -> option (list (list byte * list byte)).

(** [docid.ObjectScanFn], a closure: it is given the object and returns a
    flag and an error; what it does to the variables it has captured is the
    change of the state. *)
Definition ObjectScanFn : Type := Object -> State -> bool * option string * State.

(** The loop over the cursor. *)
Fixpoint scanRows (scan : ObjectScanFn) (rows : list (list byte * list byte))
  (st : State) : State * option string :=
  match rows with
  | [] => (st, None)
  | (_, v) :: rest =>
      match FromBinary v with
      | Err e => (st, Some (Wrapf e "unmarshal data object"))
      | Ok elem =>
          let '(_, err, st') := scan elem st in
          match err with
          | Some e => (st', Some e)
          | None => scanRows scan rest st'
          end
      end
  end.

Definition ScanAllLSM (store : Store) (scan : ObjectScanFn) (st : State)
  : State * option string :=
  match store ObjectsBucketLSM with
  | None => (st, Some "objects bucket not found")
  | Some rows => scanRows scan rows st
  end.

(** The state after [scan] has seen the object. *)
Definition seen (scan : ObjectScanFn) (st : State) (o : Object) : State :=
  (scan o st).2.

Lemma scanRows_app scan before : forall objs st rest,
  Forall2 (fun row o => FromBinary row.2 = Ok o) before objs ->
  (forall o st', o ∈ objs -> (scan o st').1.2 = None) ->
  scanRows scan (before ++ rest) st
  = scanRows scan rest (fold_left (seen scan) objs st).
Proof.
  induction before as [|[k v] before IH]; intros objs st rest Hdec Hscan.
  - inversion Hdec. reflexivity.
  - inversion Hdec as [|? o ? objs' Hv Hrest]; subst. simpl in *.
    rewrite Hv.
    pose proof (Hscan o st (list_elem_of_here o objs')) as Ho.
    unfold seen at 2.
    destruct (scan o st) as [[flag err] st']. simpl in *. subst err.
    apply IH; [exact Hrest|].
    intros o' st'' Ho'. apply Hscan, list_elem_of_further, Ho'.
Qed.

(** X9. When every row of the object bucket can be unmarshalled and [scan]
    reports no error, [ScanAllLSM] hands every object to [scan], once and
    in the order of the cursor, and returns no error; the flag that [scan]
    returns is not looked at, so returning [false] does not end the scan. *)
Theorem ScanAllLSM_visits_all (store : Store) scan st rows objs :
  store ObjectsBucketLSM = Some rows ->
  Forall2 (fun row o => FromBinary row.2 = Ok o) rows objs ->
  (forall o st', o ∈ objs -> (scan o st').1.2 = None) ->
  ScanAllLSM store scan st = (fold_left (seen scan) objs st, None).
Proof.
  intros Hstore Hdec Hscan. unfold ScanAllLSM. rewrite Hstore.
  rewrite <- (app_nil_r rows).
  rewrite (scanRows_app scan rows objs st [] Hdec Hscan). reflexivity.
Qed.

(** X10. [ScanAllLSM] ends at the first row that fails. When the row cannot
    be unmarshalled, the error is that of [FromBinary] with the prefix
    [unmarshal data object], and [scan] has seen the objects of the rows
    before it and no other; when [scan] reports an error on the object of
    the row, that error is returned as it is. The rows after it are not
    read. *)
Theorem ScanAllLSM_first_failure (store : Store) scan st before row after objs :
  store ObjectsBucketLSM = Some (before ++ row :: after) ->
  Forall2 (fun r o => FromBinary r.2 = Ok o) before objs ->
  (forall o st', o ∈ objs -> (scan o st').1.2 = None) ->
  (forall e, FromBinary row.2 = Err e ->
     ScanAllLSM store scan st
     = (fold_left (seen scan) objs st, Some (Wrapf e "unmarshal data object")))
  /\ (forall o e,
        FromBinary row.2 = Ok o ->
        (scan o (fold_left (seen scan) objs st)).1.2 = Some e ->
        ScanAllLSM store scan st
        = (seen scan (fold_left (seen scan) objs st) o, Some e)).
Proof.
  intros Hstore Hdec Hscan. unfold ScanAllLSM. rewrite Hstore.
  rewrite (scanRows_app scan before objs st (row :: after) Hdec Hscan).
  destruct row as [k v]. simpl. split.
  - intros e He. rewrite He. reflexivity.
  - intros o e Ho He. rewrite Ho. unfold seen at 2.
    destruct (scan o (fold_left (seen scan) objs st)) as [[flag err] st'].
    simpl in *. subst err. reflexivity.
Qed.

End Scan.

(** *** The claims on a tally of three groups *)

Definition path : list string := ["category"].

Definition entryA : string * list N := ("A", [1; 2; 3; 4; 5]%N).
Definition entryB : string * list N := ("B", [6; 7; 8]%N).
Definition entryC : string * list N := ("C", [9]%N).

Definition groupOf (entry : string * list N) : group string :=
  mkGroup path (fst entry) (Z.of_nat (length (snd entry))) (snd entry).

Definition groupA : group string := groupOf entryA.
Definition groupB : group string := groupOf entryB.
Definition groupC : group string := groupOf entryC.
Definition groupX : group string := groupOf ("X", [1; 2; 3]%N).
Definition groupY : group string := groupOf ("Y", [4; 5; 6]%N).

Definition tally (entries : list (string * list N)) (limit : Z) : grouper string :=
  mkGrouper path entries [] limit.

(** C7 at the limit 0. The first insertion into an empty ranked list keeps
    the candidate whatever the limit is: a tally of one group yields one
    group, more than the limit, and the tally A:5, B:3, C:1 visited in this
    order yields the group C, the one with the lowest count. *)
Theorem aggregateAndSelect_limit_zero :
  (aggregateAndSelect (tally [entryA] 0)).2 = Ok [groupA]
  /\ (aggregateAndSelect (tally [entryA; entryB; entryC] 0)).2 = Ok [groupC]
  /\ (aggregateAndSelect (tally [entryB; entryA] 0)).2 = Ok [groupA]
  /\ (aggregateAndSelect (tally [entryA; entryB] 0)).2 = Ok [].
Proof. repeat split; vm_compute; reflexivity. Qed.

(** The example of C7 with the limit 2: the tally A:5, B:3, C:1 yields
    the groups A and B, in this order, in whatever order the tally is visited. *)
Theorem aggregateAndSelect_example entries :
  entries ≡ₚ [entryA; entryB; entryC] ->
  (aggregateAndSelect (tally entries 2)).2 = Ok [groupA; groupB].
Proof.
  intros Hperm. symmetry in Hperm.
  apply permutations_Permutation, list_elem_of_In in Hperm.
  vm_compute in Hperm.
  repeat (destruct Hperm as [<-|Hperm]; [vm_compute; reflexivity|]).
  destruct Hperm.
Qed.

Lemma aggregateAndSelect_example_witness :
  (aggregateAndSelect (tally [entryC; entryA; entryB] 2)).2
  = Ok [groupA; groupB].
Proof.
  refine (aggregateAndSelect_example [entryC; entryA; entryB] _).
  change ([entryC; entryA; entryB] ≡ₚ [entryA; entryB] ++ [entryC]).
  apply Permutation_cons_append.
Defined.

Lemma aggregateAndSelect_selects_witness :
  exists tg dropped,
    (aggregateAndSelect (tally [entryC; entryA; entryB] 2)).2 = Ok tg
    /\ descending tg
    /\ Z.of_nat (length tg) = Z.min 2 3
    /\ tg ++ dropped ≡ₚ [groupC; groupA; groupB]
    /\ Forall (fun d => Forall (fun k => (res_Count d <= res_Count k)%Z) tg)
         dropped.
Proof.
  refine (aggregateAndSelect_selects (tally [entryC; entryA; entryB] 2) _ _).
  - simpl. lia.
  - reflexivity.
Defined.

Lemma insertOrdered_invariant_witness :
  descending
    (topGroups (fold_left insertOrdered [groupC; groupX; groupA; groupY; groupB]
                  (newGrouper path 3)))
  /\ (Z.of_nat
        (length
           (topGroups
              (fold_left insertOrdered [groupC; groupX; groupA; groupY; groupB]
                 (newGrouper path 3)))) <= 3)%Z.
Proof.
  refine (insertOrdered_invariant (newGrouper path 3)
            [groupC; groupX; groupA; groupY; groupB] _ _ _).
  - simpl. lia.
  - constructor.
  - simpl. lia.
Defined.

(** C8, refuted as stated: the ranked list holds X with the count 3 and the
    candidate Y has the count 3; the scan stops at X, and Y is placed before
    it, not after it. *)
Lemma insertOrdered_tie_counterexample :
  res_Count groupX = res_Count groupY
  /\ findSlot groupY [groupX] 0 = Some 0%nat
  /\ topGroups (insertOrdered (mkGrouper path [] [groupX] 5) groupY)
     = [groupY; groupX]
  /\ [groupY; groupX] <> [groupX; groupY].
Proof.
  split; [reflexivity|]. split; [reflexivity|]. split; [reflexivity|].
  discriminate.
Qed.

Lemma insertOrdered_equal_count_witness :
  findSlot groupY [groupA; groupX; groupC] 0 = Some 1%nat
  /\ topGroups (insertOrdered (mkGrouper path [] [groupA; groupX; groupC] 5) groupY)
     = cut 5 [groupA; groupY; groupX; groupC].
Proof.
  refine (insertOrdered_equal_count (mkGrouper path [] [groupA; groupX; groupC] 5)
            groupY [groupA] groupX [groupC] _ _ _ _).
  - repeat constructor; simpl; lia.
  - reflexivity.
  - reflexivity.
  - repeat constructor. simpl. lia.
Defined.

Lemma aggregateAndSelect_nonpositive_limit_witness :
  exists tg,
    (aggregateAndSelect (tally [entryA; entryB; entryC] (-1))).2 = Ok tg
    /\ (tg = []
        \/ exists entry,
             last [entryA; entryB; entryC] = Some entry
             /\ tg = [candidate (tally [entryA; entryB; entryC] (-1)) entry])
    /\ (forall entry, [entryA; entryB; entryC] = [entry] ->
        tg = [candidate (tally [entryA; entryB; entryC] (-1)) entry]).
Proof.
  refine (aggregateAndSelect_nonpositive_limit
            (tally [entryA; entryB; entryC] (-1)) _ _).
  - simpl. lia.
  - reflexivity.
Defined.

(** *** A scan on a bucket of three rows

    The objects are document ids, stored in one byte; the scan function
    notes the ids it is given and returns the flag [false]. *)

Definition oneByte (v : list byte) : result N :=
  match v with
  | [b] => Ok (Byte.to_N b)
  | _ => Err "unexpected end of input"
  end.

Definition note : ObjectScanFn (Object := N) (State := list N) :=
  fun o st => (false, None, st ++ [o]).

Definition objectStore (rows : list (list byte * list byte))
  : Store :=
  fun name => if String.eqb name "objects" then Some rows else None.

Lemma ScanAllLSM_visits_all_witness :
  ScanAllLSM oneByte "objects"
    (objectStore [([x01], [x07]); ([x02], [x08]); ([x03], [x09])]) note []
  = (fold_left (seen note) [7; 8; 9]%N [], None).
Proof.
  refine (ScanAllLSM_visits_all oneByte "objects" _ note []
            [([x01], [x07]); ([x02], [x08]); ([x03], [x09])] [7; 8; 9]%N _ _ _).
  - reflexivity.
  - repeat constructor.
  - intros o st' _. reflexivity.
Defined.

Lemma ScanAllLSM_first_failure_witness :
  (forall e, oneByte [] = Err e ->
     ScanAllLSM oneByte "objects"
       (objectStore [([x01], [x07]); ([x02], []); ([x03], [x09])]) note []
     = (fold_left (seen note) [7%N] [], Some (Wrapf e "unmarshal data object")))
  /\ (forall o e,
        oneByte [] = Ok o ->
        (note o (fold_left (seen note) [7%N] [])).1.2 = Some e ->
        ScanAllLSM oneByte "objects"
          (objectStore [([x01], [x07]); ([x02], []); ([x03], [x09])]) note []
        = (seen note (fold_left (seen note) [7%N] []) o, Some e)).
Proof.
  refine (ScanAllLSM_first_failure oneByte "objects" _ note []
            [([x01], [x07])] ([x02], []) [([x03], [x09])] [7%N] _ _ _).
  - reflexivity.
  - repeat constructor.
  - intros o st' _. reflexivity.
Defined.

End Aggregator.

(** ** Write-ahead-log recovery of a Replace bucket

    The bucket and its log live in package [lsmkv], of which only tests are
    part of the embedded sources; the definitions of this module follow the
    specification (sections 3 and 4.3). *)

Module Lsmkv.

#[global] Instance byte_countable : Countable byte :=
  inj_countable Byte.to_N Byte.of_N Byte.of_to_N.

(** A write of the Replace strategy. *)
Inductive entry : Type :=
| EntryPut (key value : list byte)
| EntryDelete (key : list byte).

(** What reading one entry off the log yields: the entry and the bytes that
    follow it, or the finding that the log ends inside the entry (a
    truncated write), or a malformed entry. *)
Inductive parsed : Type :=
| Parsed (e : entry) (rest : list byte)
| Incomplete
| Malformed.

(** A memory table of the Replace strategy: the last write of each key, a
    value or a tombstone ([None]). *)
Definition memtable : Type := gmap (list byte) (option (list byte)).

Definition applyEntry (mt : memtable) (e : entry) : memtable :=
  match e with
  | EntryPut key value => <[key := Some value]> mt
  | EntryDelete key => <[key := None]> mt
  end.

Section Log.

(** The specification does not fix the encoding of the log: the format is a
    parameter, a writer and a reader of one entry. *)
Variable encodeEntry : entry -> list byte.
Variable decodeEntry : list byte -> parsed.

(** The reader reads back what the writer wrote, whatever follows it. *)
Hypothesis decode_encode_entry :
  forall e rest, decodeEntry (encodeEntry e ++ rest) = Parsed e rest.
(** An entry takes at least one byte. *)
Hypothesis encode_nonempty : forall e, encodeEntry e <> [].
(** A log that ends inside an entry is recognised as such. *)
Hypothesis decode_truncated :
  forall e n, (0 < n < length (encodeEntry e))%nat ->
    decodeEntry (take n (encodeEntry e)) = Incomplete.

(** Modelled from the spec: the bucket of package [lsmkv] (Replace
    strategy) is not part of the embedded sources. A bucket owns immutable
    segments (oldest first), one active memory table and one write-ahead
    log. *)
Record Bucket : Type := mkBucket {
  segments : list memtable;
  active : memtable;
  wal : list byte
}.

(** Modelled from the spec: a write is first appended to the write-ahead
    log, then applied to the active memory table. *)
Definition write (b : Bucket) (e : entry) : Bucket :=
  mkBucket (segments b) (applyEntry (active b) e) (wal b ++ encodeEntry e).

Definition Put (b : Bucket) (key value : list byte) : Bucket :=
  write b (EntryPut key value).

Definition Delete (b : Bucket) (key : list byte) : Bucket :=
  write b (EntryDelete key).

(** Modelled from the spec: [Get] reads the memory table first and falls
    back through the segments from the newest to the oldest; the first hit
    wins, and a tombstone is a hit that yields no value. *)
Fixpoint getLayers (layers : list memtable) (key : list byte)
  : option (list byte) :=
  match layers with
  | [] => None
  | mt :: older =>
      match mt !! key with
      | Some hit => hit
      | None => getLayers older key
      end
  end.

Definition Get (b : Bucket) (key : list byte) : option (list byte) :=
  getLayers (active b :: rev (segments b)) key.

(** Modelled from the spec: the recovery protocol replays the entries of
    the log in order into a fresh memory table; a final entry that is cut
    short is discarded and recovery goes on with everything before it; any
    other malformed entry is a storage fault. Each entry read takes bytes
    off the log, so the length of the log bounds the number of steps. *)
Fixpoint replay (steps : nat) (log : list byte) (mt : memtable)
  : result memtable :=
  match log with
  | [] => Ok mt
  | _ :: _ =>
      match steps with
      | O => Err "write-ahead log: entry of no length"
      | S steps' =>
          match decodeEntry log with
          | Parsed e rest => replay steps' rest (applyEntry mt e)
          | Incomplete => Ok mt
          | Malformed => Err "write-ahead log: malformed entry"
          end
      end
  end.

Definition recover (log : list byte) : result memtable :=
  replay (length log) log ∅.

(** Modelled from the spec: opening a bucket over a directory that holds
    segments and, when the prior session did not flush it, a write-ahead
    log. *)
Definition NewBucket (segs : list memtable) (walFile : option (list byte))
  : result Bucket :=
  match walFile with
  | None => Ok (mkBucket segs ∅ [])
  | Some log =>
      match recover log with
      | Ok mt => Ok (mkBucket segs mt log)
      | Err e => Err e
      end
  end.

Definition encodeAll (es : list entry) : list byte :=
  concat (map encodeEntry es).

Definition freshBucket (segs : list memtable) : Bucket := mkBucket segs ∅ [].

(** *** The log of a sequence of writes, and its replay *)

Lemma writes_wal es : forall b,
  wal (fold_left write es b) = wal b ++ encodeAll es.
Proof.
  induction es as [|e es IH]; intros b; simpl.
  - rewrite app_nil_r. reflexivity.
  - rewrite IH. unfold encodeAll. simpl. rewrite app_assoc. reflexivity.
Qed.

Lemma writes_active es : forall b,
  active (fold_left write es b) = fold_left applyEntry es (active b).
Proof. induction es as [|e es IH]; intros b; simpl; [reflexivity|apply IH]. Qed.

Lemma writes_segments es : forall b,
  segments (fold_left write es b) = segments b.
Proof.
  induction es as [|e es IH]; intros b; simpl; [reflexivity|].
  rewrite IH. reflexivity.
Qed.

Lemma encodeAll_length es : (length es <= length (encodeAll es))%nat.
Proof.
  induction es as [|e es IH]; simpl; [lia|].
  unfold encodeAll in *. simpl. rewrite length_app.
  pose proof (encode_nonempty e) as Hne.
  destruct (encodeEntry e); [congruence|simpl; lia].
Qed.

Lemma replay_step steps e rest mt :
  replay (S steps) (encodeEntry e ++ rest) mt
  = replay steps rest (applyEntry mt e).
Proof.
  pose proof (encode_nonempty e) as Hne.
  pose proof (decode_encode_entry e rest) as Hdec.
  destruct (encodeEntry e ++ rest) as [|c log] eqn:Hlog.
  - apply app_eq_nil in Hlog as [Hnil _]. congruence.
  - simpl. rewrite Hdec. reflexivity.
Qed.

Lemma replay_complete es : forall steps mt,
  (length es <= steps)%nat ->
  replay steps (encodeAll es) mt = Ok (fold_left applyEntry es mt).
Proof.
  induction es as [|e es IH]; intros steps mt Hsteps.
  - destruct steps; reflexivity.
  - destruct steps as [|steps]; [simpl in Hsteps; lia|].
    change (encodeAll (e :: es)) with (encodeEntry e ++ encodeAll es).
    rewrite replay_step. simpl. apply IH. simpl in Hsteps. lia.
Qed.

Lemma replay_cut es e n : forall steps mt,
  (length es < steps)%nat ->
  (0 < n < length (encodeEntry e))%nat ->
  replay steps (encodeAll es ++ take n (encodeEntry e)) mt
  = Ok (fold_left applyEntry es mt).
Proof.
  intros steps mt Hsteps Hn. revert steps mt Hsteps.
  induction es as [|e0 es IH]; intros steps mt Hsteps.
  - destruct steps as [|steps]; [lia|]. simpl.
    pose proof (decode_truncated e n Hn) as Hdec.
    destruct (take n (encodeEntry e)) as [|c log] eqn:Hlog.
    + reflexivity.
    + rewrite Hdec. reflexivity.
  - destruct steps as [|steps]; [simpl in Hsteps; lia|].
    change (encodeAll (e0 :: es)) with (encodeEntry e0 ++ encodeAll es).
    rewrite <- app_assoc, replay_step. simpl. apply IH. simpl in Hsteps. lia.
Qed.

Lemma recover_complete es :
  recover (encodeAll es) = Ok (fold_left applyEntry es ∅).
Proof. apply replay_complete, encodeAll_length. Qed.

Lemma recover_cut es e n :
  (0 < n <= length (encodeEntry e))%nat ->
  recover (take (length (encodeAll es ++ encodeEntry e) - n)
             (encodeAll es ++ encodeEntry e))
  = Ok (fold_left applyEntry es ∅).
Proof.
  intros Hn. rewrite length_app.
  replace (length (encodeAll es) + length (encodeEntry e) - n)%nat
    with (length (encodeAll es) + (length (encodeEntry e) - n))%nat by lia.
  rewrite take_app_add.
  destruct (decide (n = length (encodeEntry e))) as [->|Hlt].
  - rewrite Nat.sub_diag, take_0, app_nil_r. apply recover_complete.
  - unfold recover. apply replay_cut; [|lia].
    rewrite length_app, length_take. pose proof (encodeAll_length es). lia.
Qed.

(** *** Claim about recovery *)

(** C4. A bucket whose writes (Put and Delete, in any number and order) are
    recorded in its write-ahead log: a new bucket opened over that log
    holds the same memory table and answers every [Get] as the original
    does. When the last [n] bytes of the log are missing, with [n] at most
    the length of the last entry, opening the bucket succeeds and it holds
    the state of all writes before the last one. *)
Theorem wal_recovery segs (es : list entry) :
  let b := fold_left write es (freshBucket segs) in
  (exists b',
      NewBucket segs (Some (wal b)) = Ok b'
      /\ active b' = active b
      /\ forall key, Get b' key = Get b key)
  /\ forall e n, (0 < n <= length (encodeEntry e))%nat ->
       let log := wal (write b e) in
       exists b',
         NewBucket segs (Some (take (length log - n) log)) = Ok b'
         /\ active b' = active b
         /\ forall key, Get b' key = Get b key.
Proof.
  intros b.
  assert (Hwal : wal b = encodeAll es) by (subst b; rewrite writes_wal; reflexivity).
  assert (Hact : active b = fold_left applyEntry es ∅)
    by (subst b; rewrite writes_active; reflexivity).
  assert (Hseg : segments b = segs)
    by (subst b; rewrite writes_segments; reflexivity).
  split.
  - unfold NewBucket. rewrite Hwal, recover_complete.
    eexists. split; [reflexivity|]. simpl. split; [symmetry; exact Hact|].
    intros key. unfold Get. simpl. rewrite Hact, Hseg. reflexivity.
  - intros e n Hn log. subst log. unfold write at 1 2. simpl.
    unfold NewBucket. rewrite Hwal, (recover_cut es e n Hn).
    eexists. split; [reflexivity|]. simpl. split; [symmetry; exact Hact|].
    intros key. unfold Get. simpl. rewrite Hact, Hseg. reflexivity.
Qed.

End Log.

Arguments mkBucket segments active wal : assert.

(** *** A log format

    One format that meets the three requirements, on which recovery can be
    run: a byte string is written byte by byte, each byte after the marker
    [x01], and closed by the marker [x00]; an entry is a tag ([x01] for a
    put, [x02] for a delete) followed by the key and, for a put, the
    value. *)

Fixpoint frameBytes (bs : list byte) : list byte :=
  match bs with
  | [] => [x00]
  | b :: bs' => x01 :: b :: frameBytes bs'
  end.

Inductive frame : Type :=
| Frame (bs rest : list byte)
| FrameIncomplete
| FrameMalformed.

Fixpoint unframeBytes (input : list byte) : frame :=
  match input with
  | [] => FrameIncomplete
  | x00 :: rest => Frame [] rest
  | x01 :: [] => FrameIncomplete
  | x01 :: b :: rest =>
      match unframeBytes rest with
      | Frame bs rest' => Frame (b :: bs) rest'
      | FrameIncomplete => FrameIncomplete
      | FrameMalformed => FrameMalformed
      end
  | _ :: _ => FrameMalformed
  end.

Definition writeEntry (e : entry) : list byte :=
  match e with
  | EntryPut key value => x01 :: frameBytes key ++ frameBytes value
  | EntryDelete key => x02 :: frameBytes key
  end.

Definition readEntry (input : list byte) : parsed :=
  match input with
  | [] => Incomplete
  | x01 :: input' =>
      match unframeBytes input' with
      | Frame key input'' =>
          match unframeBytes input'' with
          | Frame value rest => Parsed (EntryPut key value) rest
          | FrameIncomplete => Incomplete
          | FrameMalformed => Malformed
          end
      | FrameIncomplete => Incomplete
      | FrameMalformed => Malformed
      end
  | x02 :: input' =>
      match unframeBytes input' with
      | Frame key rest => Parsed (EntryDelete key) rest
      | FrameIncomplete => Incomplete
      | FrameMalformed => Malformed
      end
  | _ :: _ => Malformed
  end.

Lemma unframe_frame bs rest : unframeBytes (frameBytes bs ++ rest) = Frame bs rest.
Proof.
  induction bs as [|b bs IH]; simpl; [reflexivity|]. rewrite IH. reflexivity.
Qed.

Lemma unframe_cut bs : forall n,
  (n < length (frameBytes bs))%nat ->
  unframeBytes (take n (frameBytes bs)) = FrameIncomplete.
Proof.
  induction bs as [|b bs IH]; intros n Hn; simpl in *.
  - destruct n as [|n]; [reflexivity|lia].
  - destruct n as [|[|n]]; [reflexivity|reflexivity|]. simpl.
    rewrite IH by lia. reflexivity.
Qed.

Lemma readEntry_writeEntry e rest :
  readEntry (writeEntry e ++ rest) = Parsed e rest.
Proof.
  destruct e as [key value|key]; simpl.
  - rewrite <- app_assoc, unframe_frame, unframe_frame. reflexivity.
  - rewrite unframe_frame. reflexivity.
Qed.

Lemma writeEntry_nonempty e : writeEntry e <> [].
Proof. destruct e; discriminate. Qed.

Lemma readEntry_cut e n :
  (0 < n < length (writeEntry e))%nat ->
  readEntry (take n (writeEntry e)) = Incomplete.
Proof.
  destruct n as [|n]; [lia|]. intros [_ Hn].
  destruct e as [key value|key]; simpl in *.
  - rewrite length_app in Hn.
    destruct (decide (n < length (frameBytes key))%nat) as [Hkey|Hkey].
    + rewrite take_app_le by lia. rewrite unframe_cut by exact Hkey. reflexivity.
    + rewrite take_app_ge by lia. rewrite unframe_frame.
      rewrite unframe_cut by lia. reflexivity.
  - rewrite unframe_cut by lia. reflexivity.
Qed.

(** The scenario of the recovery tests: three keys are written, the second
    is deleted, and the third is updated by the last write. *)
Definition bytes (s : string) : list byte := list_byte_of_string s.

Definition firstWrites : list entry :=
  [EntryPut (bytes "key-1") (bytes "original value for key1");
   EntryPut (bytes "key-2") (bytes "original value for key2");
   EntryPut (bytes "key-3") (bytes "original value for key3");
   EntryDelete (bytes "key-2")].

Definition lastWrite : entry :=
  EntryPut (bytes "key-3") (bytes "updated value for key 3").

Definition original : Bucket :=
  fold_left (write writeEntry) firstWrites (freshBucket []).

Lemma wal_recovery_witness :
  (exists b',
      NewBucket readEntry [] (Some (wal original)) = Ok b'
      /\ active b' = active original
      /\ forall key, Get b' key = Get original key)
  /\ (exists b',
        NewBucket readEntry []
          (Some (take (length (wal (write writeEntry original lastWrite)) - 6)
                   (wal (write writeEntry original lastWrite)))) = Ok b'
        /\ active b' = active original
        /\ forall key, Get b' key = Get original key).
Proof.
  pose proof (wal_recovery writeEntry readEntry readEntry_writeEntry
                writeEntry_nonempty readEntry_cut [] firstWrites) as [Hfull Hcut].
  split; [exact Hfull|]. apply (Hcut lastWrite 6%nat).
  vm_compute. split; [lia|]. apply Nat.leb_le. reflexivity.
Defined.

(** The tests' observations, by running the model: after recovery from the
    whole log of all five writes the third key holds the updated value;
    after recovery from the log without its last six bytes it holds the
    original value, the first key is unchanged and the second is absent. *)
Example recover_whole_log :
  match NewBucket readEntry []
          (Some (wal (write writeEntry original lastWrite))) with
  | Ok b' =>
      Get b' (bytes "key-1") = Some (bytes "original value for key1")
      /\ Get b' (bytes "key-2") = None
      /\ Get b' (bytes "key-3") = Some (bytes "updated value for key 3")
  | Err _ => False
  end.
Proof. vm_compute. repeat split. Qed.

Example recover_corrupt_last_element :
  match NewBucket readEntry []
          (Some (take (length (wal (write writeEntry original lastWrite)) - 6)
                   (wal (write writeEntry original lastWrite)))) with
  | Ok b' =>
      Get b' (bytes "key-1") = Some (bytes "original value for key1")
      /\ Get b' (bytes "key-2") = None
      /\ Get b' (bytes "key-3") = Some (bytes "original value for key3")
  | Err _ => False
  end.
Proof. vm_compute. repeat split. Qed.

End Lsmkv.

(** ** Validation of filters against the schema

    [ValidateFilters] belongs to a package of which only the test
    [explorer_validate_filters_test.go] is part of the embedded sources; the
    definitions of this module follow section 4.1 of the specification and
    the error messages that the test expects. *)

Module Traverser.

Import Inverted.

(** [schema.DataType]: the primitive types and their array variants. *)
Inductive DataType : Type :=
| DataTypeString
| DataTypeText
| DataTypeInt
| DataTypeNumber
| DataTypeBoolean
| DataTypeDate
| DataTypeGeoCoordinates
| DataTypePhoneNumber
| DataTypeBlob
| DataTypeStringArray
| DataTypeTextArray
| DataTypeIntArray
| DataTypeNumberArray
| DataTypeBooleanArray
| DataTypeDateArray.

#[global] Instance DataType_eq_dec : EqDecision DataType.
Proof. solve_decision. Defined.

(** [schema.IsArrayType]: the scalar base type of an array type. *)
Definition IsArrayType (dt : DataType) : option DataType :=
  match dt with
  | DataTypeStringArray => Some DataTypeString
  | DataTypeTextArray => Some DataTypeText
  | DataTypeIntArray => Some DataTypeInt
  | DataTypeNumberArray => Some DataTypeNumber
  | DataTypeBooleanArray => Some DataTypeBoolean
  | DataTypeDateArray => Some DataTypeDate
  | _ => None
  end.

(** The data type as a string. *)
Definition typeName (dt : DataType) : string :=
  match dt with
  | DataTypeString => "string"
  | DataTypeText => "text"
  | DataTypeInt => "int"
  | DataTypeNumber => "number"
  | DataTypeBoolean => "boolean"
  | DataTypeDate => "date"
  | DataTypeGeoCoordinates => "geoCoordinates"
  | DataTypePhoneNumber => "phoneNumber"
  | DataTypeBlob => "blob"
  | DataTypeStringArray => "string[]"
  | DataTypeTextArray => "text[]"
  | DataTypeIntArray => "int[]"
  | DataTypeNumberArray => "number[]"
  | DataTypeBooleanArray => "boolean[]"
  | DataTypeDateArray => "date[]"
  end.

Definition upper (c : ascii) : ascii :=
  let n := nat_of_ascii c in
  if (97 <=? n)%nat && (n <=? 122)%nat then ascii_of_nat (n - 32) else c.

(** Modelled from the spec: [valueNameFromDataType] is used by the test and
    not part of the embedded sources. The value tags that the test and the
    specification spell out are [valueString] and [valueInt]: the word
    [value] followed by the type with its first letter in upper case. *)
Definition valueNameFromDataType (dt : DataType) : string :=
  match typeName dt with
  | EmptyString => "value"
  | String c rest => "value" +:+ String (upper c) rest
  end.

(** A declared data type of a property: a primitive type or array variant,
    or the name of a referenced class. *)
Inductive declared : Type :=
| Primitive (dt : DataType)
| Reference (className : string).

Record Property : Type := mkProperty {
  Name : string;
  PropertyDataType : list declared
}.

Record Class : Type := mkClass {
  ClassName : string;
  Properties : list Property
}.

Definition Schema : Type := list Class.

Definition FindClassByName (sch : Schema) (className : string) : option Class :=
  find (fun c => String.eqb (ClassName c) className) sch.

Definition FindProperty (class : Class) (propName : string) : option Property :=
  find (fun p => String.eqb (Name p) propName) (Properties class).

(** A clause of a filter: a leaf with an operator, a path and the type tag
    of its value, or an internal node with its operands. The path is the
    alternating sequence of property and class names. *)
Inductive Clause : Type :=
| Leaf (op : Operator) (on : list string) (valueType : DataType)
| Node (op : Operator) (operands : list Clause).

(** The errors of the validation, and the message each carries. *)
Inductive FilterError : Type :=
| ErrChildOperand (position : nat) (err : FilterError)
| ErrPath
| ErrClassNotInSchema (className : string)
| ErrNoSuchProp (propName className : string)
| ErrNoDataType (propName : string)
| ErrDataType (used declaredType useInstead : DataType)
| ErrRefProp (propName target : string)
| ErrID.

Definition quoted (s : string) : string :=
  String (ascii_of_nat 34) EmptyString +:+ s +:+ String (ascii_of_nat 34) EmptyString.

Fixpoint Error (e : FilterError) : string :=
  match e with
  | ErrChildOperand position err =>
      "child operand at position " +:+ pretty position +:+ ": " +:+ Error err
  | ErrPath => "invalid path"
  | ErrClassNotInSchema className =>
      "class " +:+ quoted className +:+ " does not exist in schema"
  | ErrNoSuchProp propName className =>
      "no such prop with name '" +:+ propName +:+ "' found in class '"
      +:+ className +:+ "' in the schema. Check your schema files for which "
      +:+ "properties in this class are available"
  | ErrNoDataType propName =>
      "property " +:+ quoted propName +:+ " has no data type"
  | ErrDataType used declaredType useInstead =>
      "data type filter cannot use " +:+ quoted (valueNameFromDataType used)
      +:+ " on type " +:+ quoted (typeName declaredType)
      +:+ ", use " +:+ quoted (valueNameFromDataType useInstead) +:+ " instead"
  | ErrRefProp propName target =>
      "Property " +:+ quoted propName +:+ " is a ref prop to the class "
      +:+ quoted target +:+ ". Only " +:+ quoted "valueInt"
      +:+ " can be used on a ref prop directly to count the number of refs. "
      +:+ "Or did you mean to filter on a primitive prop of the referenced "
      +:+ "class? In this case make sure your path contains 3 elements in the "
      +:+ "form of [<propName>, <ClassNameOfReferencedClass>, "
      +:+ "<primitvePropOnClass>]"
  | ErrID =>
      "using special path [" +:+ quoted "id"
      +:+ "] to filter by uuid: must use " +:+ quoted "valueString"
      +:+ " to specify the id"
  end.

(** The class and the property on which a path lands. *)
Fixpoint resolvePath (className : string) (path : list string)
  : option (string * string) :=
  match path with
  | [] => None
  | [propName] => Some (className, propName)
  | _ :: [_] => None
  | _ :: target :: rest => resolvePath target rest
  end.

(** Modelled from the spec: the check of the value's type tag against the
    declared type of the resolved property. *)
Definition validateType (p : Property) (valueType : DataType)
  : option FilterError :=
  match PropertyDataType p with
  | [] => Some (ErrNoDataType (Name p))
  | Reference target :: _ =>
      if bool_decide (valueType = DataTypeInt) then None
      else Some (ErrRefProp (Name p) target)
  | Primitive dt :: _ =>
      match IsArrayType dt with
      | Some baseType =>
          if bool_decide (valueType = baseType) then None
          else Some (ErrDataType valueType dt baseType)
      | None =>
          if bool_decide (valueType = dt) then None
          else Some (ErrDataType valueType dt dt)
      end
  end.

(** Modelled from the spec: the validation of a leaf. The literal path
    [id] bypasses the schema and accepts a string-tagged value only. *)
Definition validateLeaf (sch : Schema) (className : string)
  (on : list string) (valueType : DataType) : option FilterError :=
  if bool_decide (on = ["id"]) then
    if bool_decide (valueType = DataTypeString) then None else Some ErrID
  else
    match resolvePath className on with
    | None => Some ErrPath
    | Some (target, propName) =>
        match FindClassByName sch target with
        | None => Some (ErrClassNotInSchema target)
        | Some class =>
            match FindProperty class propName with
            | None => Some (ErrNoSuchProp propName target)
            | Some p => validateType p valueType
            end
        end
    end.

(** Modelled from the spec: an internal node validates its children in
    order and reports the first failure with the position of the child. *)
Definition validateOperands (validate : Clause -> option FilterError)
  : nat -> list Clause -> option FilterError :=
  fix operands (position : nat) (cs : list Clause) {struct cs} :=
    match cs with
    | [] => None
    | child :: rest =>
        match validate child with
        | Some err => Some (ErrChildOperand position err)
        | None => operands (S position) rest
        end
    end.

Fixpoint validateClause (sch : Schema) (className : string) (c : Clause)
  {struct c} : option FilterError :=
  match c with
  | Leaf _ on valueType => validateLeaf sch className on valueType
  | Node _ children => validateOperands (validateClause sch className) 0 children
  end.

(** Modelled from the spec: [ValidateFilters(schema, class, filter)]; no
    filter is valid. *)
Definition ValidateFilters (sch : Schema) (className : string)
  (filter : option Clause) : option FilterError :=
  match filter with
  | None => None
  | Some root => validateClause sch className root
  end.

(** The error as the explorer reports it. *)
Definition whereError (e : FilterError) : string :=
  "invalid 'where' filter: " +:+ Error e.

(** *** Claim about array-typed properties *)

(** C6. A leaf filter whose path lands on an array-typed property (and is
    not the special path [id]), with a value tag that differs from the
    scalar base type of the array: [ValidateFilters] rejects it, and the
    message of the error names the tag that was used, the type of the
    property, and the tag of the base type as the one to use instead. *)
Theorem ValidateFilters_array_mismatch (sch : Schema) (className : string)
  (op : Operator) (on : list string) (tag : DataType)
  (target propName : string) (class : Class) (p : Property)
  (arrayType baseType : DataType) (others : list declared) :
  on <> ["id"] ->
  resolvePath className on = Some (target, propName) ->
  FindClassByName sch target = Some class ->
  FindProperty class propName = Some p ->
  PropertyDataType p = Primitive arrayType :: others ->
  IsArrayType arrayType = Some baseType ->
  tag <> baseType ->
  ValidateFilters sch className (Some (Leaf op on tag))
    = Some (ErrDataType tag arrayType baseType)
  /\ Error (ErrDataType tag arrayType baseType)
     = "data type filter cannot use " +:+ quoted (valueNameFromDataType tag)
       +:+ " on type " +:+ quoted (typeName arrayType)
       +:+ ", use " +:+ quoted (valueNameFromDataType baseType) +:+ " instead".
Proof.
  intros Hid Hpath Hclass Hprop Htype Harray Htag.
  split; [|reflexivity].
  unfold ValidateFilters, validateClause, validateLeaf.
  rewrite bool_decide_eq_false_2 by exact Hid.
  rewrite Hpath, Hclass, Hprop. unfold validateType.
  rewrite Htype, Harray.
  rewrite bool_decide_eq_false_2 by exact Htag. reflexivity.
Qed.

(** *** The schema and the filters of the test *)

Definition primitive (name : string) (dt : DataType) : Property :=
  mkProperty name [Primitive dt].

Definition classOne : Class :=
  mkClass "ClassOne"
    [primitive "string_prop" DataTypeString;
     primitive "text_prop" DataTypeText;
     primitive "string_array_prop" DataTypeStringArray;
     primitive "text_array_prop" DataTypeTextArray;
     primitive "number_prop" DataTypeNumber;
     primitive "int_prop" DataTypeInt;
     primitive "number_array_prop" DataTypeNumberArray;
     primitive "int_array_prop" DataTypeIntArray;
     primitive "boolean_prop" DataTypeBoolean;
     primitive "boolean_array_prop" DataTypeBooleanArray;
     primitive "date_prop" DataTypeDate;
     primitive "date_array_prop" DataTypeDateArray;
     primitive "blob_prop" DataTypeBlob;
     primitive "geo_prop" DataTypeGeoCoordinates;
     primitive "phone_prop" DataTypePhoneNumber;
     mkProperty "ref_prop" [Reference "ClassTwo"]].

Definition classTwo : Class :=
  mkClass "ClassTwo" [primitive "string_prop" DataTypeString].

Definition schemaForFiltersValidation : Schema := [classOne; classTwo].

Definition buildFilter (op : Operator) (on : list string) (dt : DataType)
  : option Clause :=
  Some (Leaf op on dt).

Definition validate (filter : option Clause) : option string :=
  whereError <$> ValidateFilters schemaForFiltersValidation "ClassOne" filter.

Lemma ValidateFilters_array_mismatch_witness :
  ValidateFilters schemaForFiltersValidation "ClassOne"
    (Some (Leaf OperatorEqual ["number_array_prop"] DataTypeNumberArray))
    = Some (ErrDataType DataTypeNumberArray DataTypeNumberArray DataTypeNumber)
  /\ Error (ErrDataType DataTypeNumberArray DataTypeNumberArray DataTypeNumber)
     = "data type filter cannot use "
       +:+ quoted (valueNameFromDataType DataTypeNumberArray)
       +:+ " on type " +:+ quoted (typeName DataTypeNumberArray)
       +:+ ", use " +:+ quoted (valueNameFromDataType DataTypeNumber)
       +:+ " instead".
Proof.
  refine (ValidateFilters_array_mismatch schemaForFiltersValidation "ClassOne"
            OperatorEqual ["number_array_prop"] DataTypeNumberArray
            "ClassOne" "number_array_prop" classOne
            (primitive "number_array_prop" DataTypeNumberArray)
            DataTypeNumberArray DataTypeNumber [] _ _ _ _ _ _ _).
  - discriminate.
  - reflexivity.
  - reflexivity.
  - reflexivity.
  - reflexivity.
  - reflexivity.
  - discriminate.
Defined.

(** Cases of the test, by running the model. *)
Example valid_string_array_search :
  validate (buildFilter OperatorEqual ["string_array_prop"] DataTypeString) = None.
Proof. reflexivity. Qed.

Example invalid_string_array_filter_using_int :
  validate (buildFilter OperatorEqual ["string_array_prop"] DataTypeInt)
  = Some ("invalid 'where' filter: data type filter cannot use "
          +:+ quoted "valueInt" +:+ " on type " +:+ quoted "string[]"
          +:+ ", use " +:+ quoted "valueString" +:+ " instead").
Proof. reflexivity. Qed.

Example invalid_nested_filter :
  validate
    (Some (Node OperatorAnd
             [Leaf OperatorEqual ["string_prop"] DataTypeString;
              Leaf OperatorEqual ["string_prop"] DataTypeInt]))
  = Some ("invalid 'where' filter: child operand at position 1: "
          +:+ "data type filter cannot use " +:+ quoted "valueInt"
          +:+ " on type " +:+ quoted "string" +:+ ", use "
          +:+ quoted "valueString" +:+ " instead").
Proof. reflexivity. Qed.

Example valid_ref_filter :
  validate (buildFilter OperatorEqual ["ref_prop"; "ClassTwo"; "string_prop"]
              DataTypeString) = None.
Proof. reflexivity. Qed.

Example invalid_ref_filter_class :
  validate (buildFilter OperatorEqual ["ref_prop"; "ClassThree"; "string_prop"]
              DataTypeString)
  = Some ("invalid 'where' filter: class " +:+ quoted "ClassThree"
          +:+ " does not exist in schema").
Proof. reflexivity. Qed.

Example counting_ref_props :
  validate (buildFilter OperatorEqual ["ref_prop"] DataTypeInt) = None.
Proof. reflexivity. Qed.

Example filter_by_id_with_wrong_type :
  validate (buildFilter OperatorEqual ["id"] DataTypeInt)
  = Some ("invalid 'where' filter: using special path [" +:+ quoted "id"
          +:+ "] to filter by uuid: must use " +:+ quoted "valueString"
          +:+ " to specify the id").
Proof. reflexivity. Qed.

End Traverser.

(** ** Selection of properties

    [entities/search/select_property.go]: the properties that a caller wants
    returned, and whether a reference on a path has to be resolved for
    them. *)

Module Search.

Section Select.

(** [additional.Properties], of another package. *)
Context {Additional : Type}.

Inductive SelectProperty : Type := mkSelectProperty {
  Name : string;
  IsPrimitive : bool;
  IncludeTypeName : bool;
  Refs : list SelectClass
}
with SelectClass : Type := mkSelectClass {
  ClassName : string;
  RefProperties : list SelectProperty;
  AdditionalProperties : Additional
}.

(** [SelectProperties] is a slice of [SelectProperty]. *)
Definition SelectProperties : Type := list SelectProperty.

Definition FindSelectClass (sp : SelectProperty) (className : string)
  : option SelectClass :=
  find (fun selectClass => String.eqb (ClassName selectClass) className) (Refs sp).

Definition HasRefs (sp : SelectProperties) : bool :=
  existsb (fun p => negb (IsPrimitive p)) sp.

Definition FindProperty (sp : SelectProperties) (propName : string)
  : option SelectProperty :=
  find (fun prop => String.eqb (Name prop) propName) sp.

Definition usedIncorrectly : string :=
  "used incorrectly: path must have even number of segments in the form of "
  +:+ "refProp, className, refProp, className, etc.".

(** The loop [for _, p := range sp] of [ShouldResolve]; [nested] is what is
    returned at a match when the path has more than two segments. *)
Definition resolveAt (property class : string)
  (nested : option (SelectProperties -> result bool))
  : SelectProperties -> result bool :=
  fix loop (sp : SelectProperties) {struct sp} :=
    match sp with
    | [] => Ok false
    | p :: rest =>
        if IsPrimitive p then loop rest
        else if negb (String.eqb (Name p) property) then loop rest
        else
          match FindSelectClass p class with
          | None => loop rest
          | Some selectClass =>
              match nested with
              | Some resolve => resolve (RefProperties selectClass)
              | None => Ok true
              end
          end
    end.

Fixpoint ShouldResolve (sp : SelectProperties) (path : list string)
  {struct path} : result bool :=
  if negb (length path mod 2 =? 0)%nat || (length path =? 0)%nat
  then Err usedIncorrectly
  else
    match path with
    | property :: class :: rest =>
        resolveAt property class
          (if (2 <? length path)%nat
           then Some (fun refProperties => ShouldResolve refProperties rest)
           else None)
          sp
    | _ => Err usedIncorrectly
    end.

(** What [resolveAt] returns at a match. *)
Definition atMatch (nested : option (SelectProperties -> result bool))
  (refProperties : SelectProperties) : result bool :=
  match nested with
  | Some resolve => resolve refProperties
  | None => Ok true
  end.

Lemma check_passes (path : list string) :
  path <> [] -> Nat.Even (length path) ->
  negb (length path mod 2 =? 0)%nat || (length path =? 0)%nat = false.
Proof.
  intros Hne [k Hk]. rewrite Hk.
  replace ((2 * k) mod 2)%nat with O
    by (symmetry; rewrite Nat.mul_comm; apply Nat.Div0.mod_mul).
  simpl. apply Nat.eqb_neq. destruct path; [congruence|simpl in Hk; lia].
Qed.

Lemma check_fails (path : list string) :
  path = [] \/ Nat.Odd (length path) ->
  negb (length path mod 2 =? 0)%nat || (length path =? 0)%nat = true.
Proof.
  intros [->|[k Hk]]; [reflexivity|]. rewrite Hk.
  replace ((2 * k + 1) mod 2)%nat with 1%nat; [reflexivity|].
  symmetry. rewrite Nat.add_comm, Nat.mul_comm, Nat.Div0.mod_add. reflexivity.
Qed.

Lemma ShouldResolve_pair sp property class rest :
  Nat.Even (length rest) ->
  ShouldResolve sp (property :: class :: rest)
  = resolveAt property class
      (match rest with
       | [] => None
       | _ :: _ => Some (fun refProperties => ShouldResolve refProperties rest)
       end) sp.
Proof.
  intros [k Hk].
  assert (Hcheck : negb (length (property :: class :: rest) mod 2 =? 0)%nat
                   || (length (property :: class :: rest) =? 0)%nat = false).
  { apply check_passes; [discriminate|]. exists (S k). simpl. lia. }
  change (ShouldResolve sp (property :: class :: rest))
    with (if negb (length (property :: class :: rest) mod 2 =? 0)%nat
             || (length (property :: class :: rest) =? 0)%nat
          then Err usedIncorrectly
          else resolveAt property class
                 (if (2 <? length (property :: class :: rest))%nat
                  then Some (fun refProperties => ShouldResolve refProperties rest)
                  else None) sp).
  rewrite Hcheck. destruct rest; reflexivity.
Qed.

Lemma ShouldResolve_misuse sp path :
  path = [] \/ Nat.Odd (length path) ->
  ShouldResolve sp path = Err usedIncorrectly.
Proof.
  intros Hbad. apply check_fails in Hbad.
  destruct path as [|property [|class rest]]; [reflexivity|reflexivity|].
  change (ShouldResolve sp (property :: class :: rest))
    with (if negb (length (property :: class :: rest) mod 2 =? 0)%nat
             || (length (property :: class :: rest) =? 0)%nat
          then Err usedIncorrectly
          else resolveAt property class
                 (if (2 <? length (property :: class :: rest))%nat
                  then Some (fun refProperties => ShouldResolve refProperties rest)
                  else None) sp).
  rewrite Hbad. reflexivity.
Qed.

Lemma resolveAt_Ok property class nested sp :
  (forall refProperties, is_Ok (atMatch nested refProperties)) ->
  is_Ok (resolveAt property class nested sp).
Proof.
  intros Hnested. induction sp as [|p sp IH]; simpl; [exact I|].
  destruct (IsPrimitive p); [exact IH|].
  destruct (negb (String.eqb (Name p) property)); [exact IH|].
  destruct (FindSelectClass p class) as [selectClass|]; [|exact IH].
  apply (Hnested (RefProperties selectClass)).
Qed.

Lemma ShouldResolve_halves : forall n path sp,
  length path = (2 * S n)%nat -> is_Ok (ShouldResolve sp path).
Proof.
  induction n as [|n IH]; intros path sp Hlen;
    destruct path as [|property [|class rest]]; simpl in Hlen; try lia.
  - destruct rest; [|simpl in Hlen; lia].
    rewrite ShouldResolve_pair by (exists O; reflexivity).
    apply resolveAt_Ok. intros rp. exact I.
  - rewrite ShouldResolve_pair by (exists (S n); simpl; lia).
    apply resolveAt_Ok. intros rp.
    destruct rest as [|r rest]; [exact I|]. unfold atMatch.
    apply IH. simpl in Hlen |- *. lia.
Qed.

(** X11. [ShouldResolve] fails, with the message on the incorrect use,
    exactly on the empty path and on the paths with an odd number of
    segments; on every other path it returns an answer, whatever the
    selection is and however deep the path goes. *)
Theorem ShouldResolve_fails_on_misuse_only sp path :
  (path = [] \/ Nat.Odd (length path) ->
   ShouldResolve sp path = Err usedIncorrectly)
  /\ (path <> [] -> Nat.Even (length path) ->
      exists answer, ShouldResolve sp path = Ok answer).
Proof.
  split; [apply ShouldResolve_misuse|].
  intros Hne [k Hk]. destruct k as [|k].
  { destruct path; [congruence|simpl in Hk; lia]. }
  pose proof (ShouldResolve_halves k path sp Hk) as Hok.
  destruct (ShouldResolve sp path) as [answer|e]; [|destruct Hok].
  exists answer. reflexivity.
Qed.

Lemma resolveAt_weaken property class nested nested' sp :
  (forall refProperties,
      atMatch nested refProperties = Ok true ->
      atMatch nested' refProperties = Ok true) ->
  resolveAt property class nested sp = Ok true ->
  resolveAt property class nested' sp = Ok true.
Proof.
  intros Hnested. induction sp as [|p sp IH]; simpl; [discriminate|].
  destruct (IsPrimitive p); [exact IH|].
  destruct (negb (String.eqb (Name p) property)); [exact IH|].
  destruct (FindSelectClass p class) as [selectClass|]; [|exact IH].
  apply (Hnested (RefProperties selectClass)).
Qed.

Lemma ShouldResolve_true_even sp path :
  ShouldResolve sp path = Ok true -> path <> [] /\ Nat.Even (length path).
Proof.
  intros Htrue.
  destruct (Nat.Even_or_Odd (length path)) as [Heven|Hodd].
  - split; [|exact Heven]. intros ->. discriminate.
  - rewrite ShouldResolve_misuse in Htrue by (right; exact Hodd). discriminate.
Qed.

Lemma ShouldResolve_prefix_halves more : forall n path sp,
  length path = (2 * S n)%nat ->
  ShouldResolve sp (path ++ more) = Ok true ->
  ShouldResolve sp path = Ok true.
Proof.
  induction n as [|n IH]; intros path sp Hlen Htrue;
    destruct path as [|property [|class rest]]; simpl in Hlen; try lia.
  - destruct rest; [|simpl in Hlen; lia].
    change ([property; class] ++ more) with (property :: class :: more) in Htrue.
    destruct (ShouldResolve_true_even _ _ Htrue) as [_ Heven].
    rewrite ShouldResolve_pair in Htrue.
    2:{ destruct Heven as [k Hk]. simpl in Hk. exists (k - 1)%nat. lia. }
    rewrite ShouldResolve_pair by (exists O; reflexivity).
    revert Htrue. apply resolveAt_weaken. intros rp _. reflexivity.
  - change ((property :: class :: rest) ++ more)
      with (property :: class :: (rest ++ more)) in Htrue.
    destruct (ShouldResolve_true_even _ _ Htrue) as [_ Heven].
    rewrite ShouldResolve_pair in Htrue.
    2:{ destruct Heven as [k Hk]. simpl in Hk. exists (k - 1)%nat. lia. }
    rewrite ShouldResolve_pair by (exists (S n); simpl; lia).
    revert Htrue. apply resolveAt_weaken. intros rp.
    destruct rest as [|r rest]; [simpl in Hlen; lia|]. unfold atMatch.
    apply IH. simpl in Hlen |- *. lia.
Qed.

(** X12. When a reference on a path has to be resolved, so has every
    reference on the way to it: if [ShouldResolve] answers [true] for a
    path, it answers [true] for each of its non-empty prefixes with an even
    number of segments. *)
Theorem ShouldResolve_prefix sp path more :
  path <> [] ->
  Nat.Even (length path) ->
  ShouldResolve sp (path ++ more) = Ok true ->
  ShouldResolve sp path = Ok true.
Proof.
  intros Hne [k Hk] Htrue. destruct k as [|k].
  { destruct path; [congruence|simpl in Hk; lia]. }
  exact (ShouldResolve_prefix_halves more k path sp Hk Htrue).
Qed.

Lemma FindSelectClass_Some p class :
  is_Some (FindSelectClass p class)
  <-> exists selectClass, selectClass ∈ Refs p /\ ClassName selectClass = class.
Proof.
  unfold FindSelectClass. split.
  - intros [sc Hsc]. apply find_some in Hsc as [Hin Heq].
    exists sc. split; [apply list_elem_of_In, Hin|apply String.eqb_eq, Heq].
  - intros (sc & Hin & Heq).
    destruct (find _ (Refs p)) as [found|] eqn:Hfind; [eexists; reflexivity|].
    apply list_elem_of_In in Hin.
    apply (find_none _ _ Hfind sc) in Hin.
    apply String.eqb_neq in Hin. congruence.
Qed.

Lemma resolveAt_true_HasRefs property class nested sp :
  resolveAt property class nested sp = Ok true -> HasRefs sp = true.
Proof.
  induction sp as [|p sp IH]; simpl; [discriminate|].
  destruct (IsPrimitive p); simpl; [exact IH|]. reflexivity.
Qed.

(** X13. For a selection without reference properties there is nothing to
    resolve: whenever [ShouldResolve] answers [true], [HasRefs] holds. *)
Theorem ShouldResolve_true_HasRefs sp path :
  ShouldResolve sp path = Ok true -> HasRefs sp = true.
Proof.
  intros Htrue.
  destruct (ShouldResolve_true_even _ _ Htrue) as [Hne [k Hk]].
  destruct path as [|property [|class rest]]; [congruence|simpl in Hk; lia|].
  rewrite ShouldResolve_pair in Htrue
    by (exists (k - 1)%nat; simpl in Hk; lia).
  exact (resolveAt_true_HasRefs _ _ _ _ Htrue).
Qed.

(** X14. For a path of two segments the answer is [true] exactly when the
    selection holds a property of that name that is not primitive and
    selects the class. *)
Theorem ShouldResolve_two_segments sp property class :
  ShouldResolve sp [property; class] = Ok true
  <-> exists p,
        p ∈ sp /\ IsPrimitive p = false /\ Name p = property
        /\ exists selectClass,
             selectClass ∈ Refs p /\ ClassName selectClass = class.
Proof.
  rewrite ShouldResolve_pair by (exists O; reflexivity).
  induction sp as [|p sp IH]; simpl.
  - split; [discriminate|]. intros (p & Hin & _). inversion Hin.
  - destruct (IsPrimitive p) eqn:Hprim.
    { rewrite IH. split.
      - intros (q & Hin & Hq). exists q. split; [apply list_elem_of_further, Hin|exact Hq].
      - intros (q & Hin & Hq & Hrest). apply elem_of_cons in Hin as [->|Hin];
          [congruence|]. exists q. split; [exact Hin|]. split; [exact Hq|exact Hrest]. }
    destruct (String.eqb_spec (Name p) property) as [Hname|Hname]; simpl.
    + pose proof (FindSelectClass_Some p class) as Hfind.
      destruct (FindSelectClass p class) as [selectClass|].
      * split; [intros _|reflexivity]. exists p.
        split; [apply list_elem_of_here|]. split; [exact Hprim|].
        split; [exact Hname|]. apply Hfind. eexists. reflexivity.
      * rewrite IH. split.
        -- intros (q & Hin & Hq). exists q.
           split; [apply list_elem_of_further, Hin|exact Hq].
        -- intros (q & Hin & Hq & Hn & Hsc).
           apply elem_of_cons in Hin as [->|Hin].
           ++ apply Hfind in Hsc as [x Hx]. discriminate.
           ++ exists q. split; [exact Hin|]. split; [exact Hq|].
              split; [exact Hn|exact Hsc].
    + rewrite IH. split.
      * intros (q & Hin & Hq). exists q.
        split; [apply list_elem_of_further, Hin|exact Hq].
      * intros (q & Hin & Hq & Hn & Hsc).
        apply elem_of_cons in Hin as [->|Hin]; [congruence|].
        exists q. split; [exact Hin|]. split; [exact Hq|].
        split; [exact Hn|exact Hsc].
Qed.

End Select.

(** A selection over one primitive property and one reference that is
    itself followed by a reference. *)
Definition countrySelection : @SelectProperties unit :=
  [ mkSelectProperty "inCountry" false false
      [ mkSelectClass "Country" [ mkSelectProperty "name" true false [] ] tt ] ].

Definition selection : @SelectProperties unit :=
  [ mkSelectProperty "name" true false [];
    mkSelectProperty "inCity" false false
      [ mkSelectClass "City" countrySelection tt ] ].

Lemma ShouldResolve_fails_on_misuse_only_witness :
  ShouldResolve selection ["inCity"] = Err usedIncorrectly
  /\ exists answer,
       ShouldResolve selection ["inCity"; "City"; "inCountry"; "Country"]
       = Ok answer.
Proof.
  split.
  - apply (proj1 (ShouldResolve_fails_on_misuse_only selection ["inCity"])).
    right. exists 0%nat. reflexivity.
  - apply (proj2 (ShouldResolve_fails_on_misuse_only selection
                    ["inCity"; "City"; "inCountry"; "Country"])).
    + discriminate.
    + exists 2%nat. reflexivity.
Defined.

Lemma ShouldResolve_prefix_witness :
  ShouldResolve selection (["inCity"; "City"] ++ ["inCountry"; "Country"])
  = Ok true
  /\ ShouldResolve selection ["inCity"; "City"] = Ok true.
Proof.
  split; [reflexivity|].
  apply (ShouldResolve_prefix selection ["inCity"; "City"]
           ["inCountry"; "Country"]).
  - discriminate.
  - exists 1%nat. reflexivity.
  - reflexivity.
Defined.

Lemma ShouldResolve_true_HasRefs_witness :
  ShouldResolve selection ["inCity"; "City"; "inCountry"; "Country"] = Ok true
  /\ HasRefs selection = true.
Proof.
  split; [reflexivity|].
  apply (ShouldResolve_true_HasRefs selection
           ["inCity"; "City"; "inCountry"; "Country"]).
  reflexivity.
Defined.

End Search.
